(** * freud locality: cell-shell enumeration, cell indexing, cell chains,
      and the neighbor-compute drivers

    A shallow embedding of [cpp/locality/LinkCell.h] and
    [cpp/locality/NeighborComputeFunctional.h].

    Conventions.
    - [int] is a 32-bit two's-complement integer, [unsigned int] a 32-bit
      natural; both are carried as [Z] and every arithmetic operation is
      followed by the reduction into its type ([to_int], [to_uint]).  Signed
      overflow, undefined in C++, is modelled by that wrap-around; the
      theorems about well-formed ranges never trigger it.
    - [char] is a signed 8-bit integer ([to_char]).
    - [float] values are IEEE 754 values of the Standard Library's
      [spec_float]; [==] on them is [SFeqb].
    - mutation of [this] is state passing: a member function takes the object
      and returns the updated one. *)

From Stdlib Require Import ZArith Lia List Bool Permutation.
From Stdlib Require Import Floats.SpecFloat Sorting.Sorted.
From stdpp Require Import base option list gmap.

Local Open Scope Z_scope.

(** ** Machine integers *)

Module MachineInt.

Definition to_int (v : Z) : Z := (v + 2147483648) mod 4294967296 - 2147483648.
Definition to_uint (v : Z) : Z := v mod 4294967296.
Definition to_char (v : Z) : Z := (v + 128) mod 256 - 128.

Definition INT_MAX : Z := 2147483647.
Definition INT_MIN : Z := -2147483648.
Definition UINT_MAX : Z := 4294967295.

Definition iadd (a b : Z) : Z := to_int (a + b).
Definition isub (a b : Z) : Z := to_int (a - b).
Definition imul (a b : Z) : Z := to_int (a * b).
Definition ineg (a : Z) : Z := to_int (- a).

Definition uadd (a b : Z) : Z := to_uint (a + b).

Definition is_int (v : Z) : Prop := INT_MIN <= v <= INT_MAX.
Definition is_uint (v : Z) : Prop := 0 <= v <= UINT_MAX.

End MachineInt.
Import MachineInt.

(** ** [IteratorCellShell] (LinkCell.h, lines 128-314) *)

Record vec3 : Type := mkvec3 { vx : Z; vy : Z; vz : Z }.

Record IteratorCellShell : Type := mkIteratorCellShell {
  m_range : Z;        (* int *)
  m_stage : Z;        (* char *)
  m_current_x : Z;    (* int *)
  m_current_y : Z;    (* int *)
  m_current_z : Z;    (* int *)
  m_is2D : bool
}.

(** [reset(unsigned int range)]: every field but [m_is2D] is overwritten. *)
Definition reset (it : IteratorCellShell) (range : Z) : IteratorCellShell :=
  let r := to_int range in
  let z := if m_is2D it then 0 else iadd (ineg r) 1 in
  if range =? 0
  then mkIteratorCellShell r 5 (ineg r) r 0 (m_is2D it)
  else mkIteratorCellShell r 0 (ineg r) r z (m_is2D it).

(** The constructor [IteratorCellShell(unsigned int range = 0, bool is2D = false)]:
    the member initialiser sets [m_is2D], the body calls [reset(range)]. *)
Definition IteratorCellShell_new (range : Z) (is2D : bool) : IteratorCellShell :=
  reset (mkIteratorCellShell 0 0 0 0 0 is2D) range.

(** [operator++]. *)
Definition operator_incr (it : IteratorCellShell) : IteratorCellShell :=
  let r := m_range it in
  let st := m_stage it in
  let x := m_current_x it in
  let y := m_current_y it in
  let z := m_current_z it in
  let d2 := m_is2D it in
  if st =? 0 then
    let x := iadd x 1 in
    let wrapped := x >=? r in
    let x := isub x (imul (imul 2 (Z.b2z wrapped)) r) in
    let '(z, wrapped) :=
      if d2 then (z, wrapped)
      else
        let z := iadd z (Z.b2z wrapped) in
        let wrapped := z >=? r in
        (iadd z (imul (Z.b2z wrapped) (isub 1 (imul 2 r))), wrapped) in
    if wrapped
    then mkIteratorCellShell r (to_char (st + 1)) r y z d2
    else mkIteratorCellShell r st x y z d2
  else if st =? 1 then
    let y := isub y 1 in
    let wrapped := y <=? ineg r in
    let y := iadd y (imul (imul 2 (Z.b2z wrapped)) r) in
    let '(z, wrapped) :=
      if d2 then (z, wrapped)
      else
        let z := iadd z (Z.b2z wrapped) in
        let wrapped := z >=? r in
        (iadd z (imul (Z.b2z wrapped) (isub 1 (imul 2 r))), wrapped) in
    if wrapped
    then mkIteratorCellShell r (to_char (st + 1)) x (ineg r) z d2
    else mkIteratorCellShell r st x y z d2
  else if st =? 2 then
    let x := isub x 1 in
    let wrapped := x <=? ineg r in
    let x := iadd x (imul (imul 2 (Z.b2z wrapped)) r) in
    let '(z, wrapped) :=
      if d2 then (z, wrapped)
      else
        let z := iadd z (Z.b2z wrapped) in
        let wrapped := z >=? r in
        (iadd z (imul (Z.b2z wrapped) (isub 1 (imul 2 r))), wrapped) in
    if wrapped
    then mkIteratorCellShell r (to_char (st + 1)) (ineg r) y z d2
    else mkIteratorCellShell r st x y z d2
  else if st =? 3 then
    let y := iadd y 1 in
    let wrapped := y >=? r in
    let y := isub y (imul (imul 2 (Z.b2z wrapped)) r) in
    let '(z, wrapped) :=
      if d2 then (z, wrapped)
      else
        let z := iadd z (Z.b2z wrapped) in
        let wrapped := z >=? r in
        (iadd z (imul (Z.b2z wrapped) (isub 1 (imul 2 r))), wrapped) in
    if wrapped
    then
      if d2 then reset (mkIteratorCellShell r st x y z d2) (to_uint (iadd r 1))
      else mkIteratorCellShell r (to_char (st + 1)) (ineg r) (ineg r) (ineg r) d2
    else mkIteratorCellShell r st x y z d2
  else
    (* case 4, case 5 and default *)
    let x := iadd x 1 in
    let wrapped := x >? r in
    let x := isub x (imul (Z.b2z wrapped) (iadd (imul 2 r) 1)) in
    let y := iadd y (Z.b2z wrapped) in
    let wrapped := y >? r in
    let y := isub y (imul (Z.b2z wrapped) (iadd (imul 2 r) 1)) in
    if wrapped
    then
      let st := to_char (st + 1) in
      let z := r in
      if st >? 5
      then reset (mkIteratorCellShell r st x y z d2) (to_uint (iadd r 1))
      else mkIteratorCellShell r st x y z d2
    else mkIteratorCellShell r st x y z d2.

(** [operator*]. *)
Definition operator_deref (it : IteratorCellShell) : vec3 :=
  mkvec3 (m_current_x it) (m_current_y it) (m_current_z it).

(** [operator==] and [operator!=]. *)
Definition operator_eq (a b : IteratorCellShell) : bool :=
  (m_range a =? m_range b) && (m_current_x a =? m_current_x b)
  && (m_current_y a =? m_current_y b) && (m_current_z a =? m_current_z b)
  && (m_stage a =? m_stage b) && Bool.eqb (m_is2D a) (m_is2D b).

Definition operator_ne (a b : IteratorCellShell) : bool := negb (operator_eq a b).

Definition getRange (it : IteratorCellShell) : Z := m_range it.

(** [n] applications of a state transformer, first application innermost. *)
Fixpoint iterate {A : Type} (f : A -> A) (n : nat) (a : A) : A :=
  match n with
  | O => a
  | S k => iterate f k (f a)
  end.

(** [n] applications of [operator++]. *)
Definition advance (n : nat) (it : IteratorCellShell) : IteratorCellShell :=
  iterate operator_incr n it.

(** The documented driving loop
    [for (it = first; it != last; ++it)] emitting the dereferenced iterator, with a step budget;
    [None] when the budget runs out before [last] is met. *)
Fixpoint shell_loop (fuel : nat) (it last : IteratorCellShell) : option (list vec3) :=
  if operator_eq it last then Some []
  else match fuel with
       | O => None
       | S k => cons (operator_deref it) <$> shell_loop k (operator_incr it) last
       end.

(** Offsets emitted while walking from the start of shell [N] to the start
    of shell [N + 1]. *)
Definition shell_offsets (fuel : nat) (N : Z) (is2D : bool) : option (list vec3) :=
  shell_loop fuel (IteratorCellShell_new N is2D) (IteratorCellShell_new (N + 1) is2D).

(** Chebyshev distance of an offset from the origin. *)
Definition chebyshev (p : vec3) : Z :=
  Z.max (Z.abs (vx p)) (Z.max (Z.abs (vy p)) (Z.abs (vz p))).

(** Number of cells of shell [N]. *)
Definition shell_size (N : Z) (is2D : bool) : Z :=
  if N =? 0 then 1
  else if is2D then 8 * N else 24 * N * N + 2.

(** The property of one shell walk: the loop from the start of shell [N] to
    the start of shell [N + 1] terminates and emits, without repetition,
    exactly the offsets at Chebyshev distance [N] (with [dz = 0] in 2D). *)
Definition emits_exact_shell (N : Z) (is2D : bool) : Prop :=
  exists l : list vec3,
    (exists fuel, shell_offsets fuel N is2D = Some l) /\
    NoDup l /\
    (forall p, In p l <-> chebyshev p = N /\ (is2D = true -> vz p = 0)).

(** *** Bookkeeping for the walk over one shell

    [shell_inv N d2 s]: [s] is one of the states the walk over shell [N]
    passes through (for [N >= 1]); [shell_rank s] is its position in the
    walk; [shell_last] the state before the jump to the next shell;
    [shell_pred] the state one step earlier; [shell_state_of] the state that
    emits a given offset. *)

Definition shell_inv (N : Z) (d2 : bool) (s : IteratorCellShell) : Prop :=
  m_range s = N /\ m_is2D s = d2 /\
  let st := m_stage s in
  let x := m_current_x s in
  let y := m_current_y s in
  let z := m_current_z s in
  if d2 then
    z = 0 /\
    ((st = 0 /\ y = N /\ - N <= x < N) \/
     (st = 1 /\ x = N /\ - N < y <= N) \/
     (st = 2 /\ y = - N /\ - N < x <= N) \/
     (st = 3 /\ x = - N /\ - N <= y < N))
  else
    (st = 0 /\ y = N /\ - N <= x < N /\ - N < z < N) \/
    (st = 1 /\ x = N /\ - N < y <= N /\ - N < z < N) \/
    (st = 2 /\ y = - N /\ - N < x <= N /\ - N < z < N) \/
    (st = 3 /\ x = - N /\ - N <= y < N /\ - N < z < N) \/
    (st = 4 /\ z = - N /\ - N <= x <= N /\ - N <= y <= N) \/
    (st = 5 /\ z = N /\ - N <= x <= N /\ - N <= y <= N).

Definition shell_rank (s : IteratorCellShell) : Z :=
  let N := m_range s in
  let x := m_current_x s in
  let y := m_current_y s in
  let z := m_current_z s in
  if m_is2D s then
    match m_stage s with
    | 0 => x + N
    | 1 => 2 * N + (N - y)
    | 2 => 4 * N + (N - x)
    | _ => 6 * N + (y + N)
    end
  else
    let W := 2 * N * (2 * N - 1) in
    let row := (z + N - 1) * (2 * N) in
    match m_stage s with
    | 0 => row + (x + N)
    | 1 => W + row + (N - y)
    | 2 => 2 * W + row + (N - x)
    | 3 => 3 * W + row + (y + N)
    | 4 => 4 * W + (y + N) * (2 * N + 1) + (x + N)
    | _ => 4 * W + (2 * N + 1) * (2 * N + 1) + (y + N) * (2 * N + 1) + (x + N)
    end.

Definition shell_last (N : Z) (d2 : bool) : IteratorCellShell :=
  if d2 then mkIteratorCellShell N 3 (- N) (N - 1) 0 true
  else mkIteratorCellShell N 5 N N N false.

Definition shell_first (N : Z) (d2 : bool) : IteratorCellShell :=
  mkIteratorCellShell N 0 (- N) N (if d2 then 0 else - N + 1) d2.

Definition shell_pred (s : IteratorCellShell) : IteratorCellShell :=
  let N := m_range s in
  let st := m_stage s in
  let x := m_current_x s in
  let y := m_current_y s in
  let z := m_current_z s in
  let d2 := m_is2D s in
  let mk := fun st x y z => mkIteratorCellShell N st x y z d2 in
  let zlow := if d2 then true else z =? - N + 1 in
  let zup := if d2 then z else N - 1 in
  match st with
  | 0 => if x =? - N then mk 0 (N - 1) N (z - 1) else mk 0 (x - 1) y z
  | 1 => if y =? N
         then if zlow then mk 0 (N - 1) N zup else mk 1 N (- N + 1) (z - 1)
         else mk 1 x (y + 1) z
  | 2 => if x =? N
         then if zlow then mk 1 N (- N + 1) zup else mk 2 (- N + 1) (- N) (z - 1)
         else mk 2 (x + 1) y z
  | 3 => if y =? - N
         then if zlow then mk 2 (- N + 1) (- N) zup else mk 3 (- N) (N - 1) (z - 1)
         else mk 3 x (y - 1) z
  | 4 => if x =? - N
         then if y =? - N then mk 3 (- N) (N - 1) (N - 1) else mk 4 N (y - 1) z
         else mk 4 (x - 1) y z
  | _ => if x =? - N
         then if y =? - N then mk 4 N N (- N) else mk 5 N (y - 1) z
         else mk 5 (x - 1) y z
  end.

Definition shell_stage_of (N : Z) (d2 : bool) (p : vec3) : Z :=
  let x := vx p in
  let y := vy p in
  let z := vz p in
  if negb d2 && (z =? - N) then 4
  else if negb d2 && (z =? N) then 5
  else if (y =? N) && (x <? N) then 0
  else if (x =? N) && (- N <? y) then 1
  else if (y =? - N) && (- N <? x) then 2
  else 3.

Definition shell_state_of (N : Z) (d2 : bool) (p : vec3) : IteratorCellShell :=
  mkIteratorCellShell N (shell_stage_of N d2 p) (vx p) (vy p) (vz p) d2.

(** *** Instances obtained through the public interface

    [constructed it]: [it] is the result of the constructor followed by any
    number of [operator++]. *)

Inductive constructed : IteratorCellShell -> Prop :=
| constructed_new range is2D :
    0 <= range <= UINT_MAX -> constructed (IteratorCellShell_new range is2D)
| constructed_incr it :
    constructed it -> constructed (operator_incr it).

(** What every constructed instance satisfies: all fields are within their
    types, the stage is one of the six, and the instance is not the
    (unreachable) one that [operator++] would send to shell 0 without moving
    its coordinates or stage. *)
Definition shell_wf (s : IteratorCellShell) : Prop :=
  is_int (m_range s) /\ is_int (m_current_x s) /\ is_int (m_current_y s) /\
  is_int (m_current_z s) /\ 0 <= m_stage s <= 5 /\
  ~ (m_range s = -1 /\ m_stage s = 5 /\
     m_current_x s = 0 /\ m_current_y s = 0 /\ m_current_z s = 0).

(** ** The cell grid of [LinkCell] (LinkCell.h, lines 344-475) *)

(** The flat-index collaborator [Index3D] is declared in Index1D.h, which is
    not among the sources.  [getCellIndex] only uses its accessors [getW],
    [getH], [getD] (unsigned) and its call operator, so the operator is a
    field here and the theorems hold for every linearisation. *)
Record Index3D : Type := mkIndex3D {
  getW : Z;
  getH : Z;
  getD : Z;
  index3D_call : Z -> Z -> Z -> Z
}.

(** Modelled from the spec: the linearisation of [Index3D], "row-major
    linearization over (width, height, depth)", with the x index running
    fastest; used to instantiate the theorems on a concrete grid. *)
Definition Index3D_new (w h d : Z) : Index3D :=
  mkIndex3D w h d (fun i j k => to_uint (to_uint (to_uint (to_uint (k * w) * h)
                                                   + to_uint (j * w)) + i)).

(** The members of [LinkCell] that the inline member functions read. *)
Record LinkCell : Type := mkLinkCell {
  m_cell_index : Index3D;
  m_n_points : Z;                 (* unsigned int *)
  m_cell_width : spec_float;      (* float *)
  m_cell_list : list Z;           (* the array owned by the shared_ptr *)
  m_box_is2D : bool               (* getBox().is2D() *)
}.

Definition getCellIndexer (lc : LinkCell) : Index3D := m_cell_index lc.

(** [a % b] on [int]: the remainder of the division truncated towards
    zero. *)
Definition irem (a b : Z) : Z := to_int (Z.rem a b).

(** [LinkCell::getCellIndex(const vec3<int> cellCoord)]. *)
Definition getCellIndex (lc : LinkCell) (cellCoord : vec3) : Z :=
  let w := to_int (getW (getCellIndexer lc)) in
  let h := to_int (getH (getCellIndexer lc)) in
  let d := to_int (getD (getCellIndexer lc)) in
  let x := irem (vx cellCoord) w in
  let x := iadd x (if x <? 0 then w else 0) in
  let y := irem (vy cellCoord) h in
  let y := iadd y (if y <? 0 then h else 0) in
  let z := irem (vz cellCoord) d in
  let z := iadd z (if z <? 0 then d else 0) in
  index3D_call (getCellIndexer lc) (to_uint x) (to_uint y) (to_uint z).

Definition getCellWidth (lc : LinkCell) : spec_float := m_cell_width lc.

(** A cell coordinate whose components are [int]s. *)
Definition int_coord (c : vec3) : Prop :=
  is_int (vx c) /\ is_int (vy c) /\ is_int (vz c).

(** A grid whose per-axis cell counts are at least 1 and representable as
    [int] (the counts are cast to [int] by [getCellIndex]). *)
Definition grid_ok (idx : Index3D) : Prop :=
  1 <= getW idx <= INT_MAX /\ 1 <= getH idx <= INT_MAX /\ 1 <= getD idx <= INT_MAX.

(** ** [IteratorLinkCell] (LinkCell.h, lines 54-107) *)

Definition LINK_CELL_TERMINATOR : Z := 4294967295.

(** [m_cell_list] is a raw pointer: [None] is [NULL], [Some a] points to the
    first element of the array [a]. *)
Record IteratorLinkCell : Type := mkIteratorLinkCell {
  it_cell_list : option (list Z);
  m_Np : Z;
  m_Nc : Z;
  m_cur_idx : Z;
  m_cell : Z
}.

(** The default constructor. *)
Definition IteratorLinkCell_default : IteratorLinkCell :=
  mkIteratorLinkCell None 0 0 LINK_CELL_TERMINATOR 0.

(** [IteratorLinkCell(cell_list, Np, Nc, cell)]; the three [assert]s are
    compiled out of release builds and are hypotheses of the theorems. *)
Definition IteratorLinkCell_new (cell_list : list Z) (Np Nc cell : Z) : IteratorLinkCell :=
  mkIteratorLinkCell (Some cell_list) Np Nc (uadd Np cell) cell.

Definition atEnd (it : IteratorLinkCell) : bool :=
  m_cur_idx it =? LINK_CELL_TERMINATOR.

(** An array read [p[i]]: [None] when the pointer is null or the index is
    outside the array, where the C++ read is undefined. *)
Definition array_read (p : option (list Z)) (i : Z) : option Z :=
  a ← p; if i <? 0 then None else a !! Z.to_nat i.

(** [next()]: the updated iterator and the returned index, or [None] when
    the read of [m_cell_list[m_cur_idx]] is undefined. *)
Definition next (it : IteratorLinkCell) : option (IteratorLinkCell * Z) :=
  v ← array_read (it_cell_list it) (m_cur_idx it);
  Some (mkIteratorLinkCell (it_cell_list it) (m_Np it) (m_Nc it) v (m_cell it), v).

(** [begin()]. *)
Definition begin (it : IteratorLinkCell) : option (IteratorLinkCell * Z) :=
  next (mkIteratorLinkCell (it_cell_list it) (m_Np it) (m_Nc it)
          (uadd (m_Np it) (m_cell it)) (m_cell it)).

(** [LinkCell::itercell(cell)]; [getNumCells()] forwards to
    [Index3D::getNumElements()] (Index1D.h), taken to be the product of the
    three counts.  The iterator stores [m_Nc] and never reads it. *)
Definition itercell (lc : LinkCell) (cell : Z) : IteratorLinkCell :=
  IteratorLinkCell_new (m_cell_list lc) (m_n_points lc)
    (let idx := m_cell_index lc in
     to_uint (to_uint (getW idx * getH idx) * getD idx)) cell.

(** A cell list as the spec's data model describes it: [Np + Nc] slots, each
    holding the terminator or a point index below [Np]. *)
Definition cell_list_ok (cell_list : list Z) (Np Nc : Z) : Prop :=
  0 < Np /\ 0 < Nc /\ Np + Nc <= 4294967295 /\
  Z.of_nat (length cell_list) = Np + Nc /\
  Forall (fun v => v = LINK_CELL_TERMINATOR \/ 0 <= v < Np) cell_list.

(** The iterators a caller obtains from the constructor by calls of
    [next()] that were made while [atEnd()] was false. *)
Inductive chain_cursor (cell_list : list Z) (Np Nc cell : Z) : IteratorLinkCell -> Prop :=
| cursor_first it v :
    next (IteratorLinkCell_new cell_list Np Nc cell) = Some (it, v) ->
    chain_cursor cell_list Np Nc cell it
| cursor_next it it' v :
    chain_cursor cell_list Np Nc cell it -> atEnd it = false ->
    next it = Some (it', v) ->
    chain_cursor cell_list Np Nc cell it'.

(** The claim that one more [next()] after [atEnd()] is well defined. *)
Definition next_after_end_defined (it : IteratorLinkCell) : Prop :=
  atEnd it = true -> is_Some (next it).

(** ** [LinkCellQueryBallIterator] (LinkCell.h, lines 477-559) *)

Record vec3f : Type := mkvec3f { fx : spec_float; fy : spec_float; fz : spec_float }.

(** The base class [LinkCellIterator] with the members of its own base that
    the constructor fills. *)
Record LinkCellIterator : Type := mkLinkCellIterator {
  m_query_point : vec3f;
  m_query_point_idx : Z;
  m_exclude_ii : bool;
  m_linkcell : LinkCell;
  m_neigh_cell_iter : IteratorCellShell;
  m_cell_iter : IteratorLinkCell;
  m_searched_cells : gset Z
}.

Record LinkCellQueryBallIterator : Type := mkLinkCellQueryBallIterator {
  ball_base : LinkCellIterator;
  m_r_max : spec_float;
  m_extra_search_width : Z
}.

(** [LinkCellIterator(neighbor_query, query_point, query_point_idx, exclude_ii)].
    [getCell(m_query_point)] goes through [Box::makeFraction], which is not
    among the sources; its result is the argument [query_cell]. *)
Definition LinkCellIterator_new (neighbor_query : LinkCell) (query_point : vec3f)
    (query_point_idx : Z) (exclude_ii : bool) (query_cell : Z) : LinkCellIterator :=
  mkLinkCellIterator query_point query_point_idx exclude_ii neighbor_query
    (IteratorCellShell_new 0 (m_box_is2D neighbor_query))
    (itercell neighbor_query query_cell)
    ∅.

(** [LinkCellQueryBallIterator(neighbor_query, query_point, query_point_idx,
    r_max, exclude_ii)]; [==] on [float] is [SFeqb]. *)
Definition LinkCellQueryBallIterator_new (neighbor_query : LinkCell) (query_point : vec3f)
    (query_point_idx : Z) (r_max : spec_float) (exclude_ii : bool) (query_cell : Z)
    : LinkCellQueryBallIterator :=
  mkLinkCellQueryBallIterator
    (LinkCellIterator_new neighbor_query query_point query_point_idx exclude_ii query_cell)
    r_max
    (if SFeqb r_max (getCellWidth neighbor_query) then 0 else 1).

(** Two floats denote the same number: the same non-NaN value, or two
    zeros of either sign. *)
Definition same_number (a b : spec_float) : Prop :=
  match a, b with
  | S754_nan, _ | _, S754_nan => False
  | S754_zero _, S754_zero _ => True
  | _, _ => a = b
  end.

(** ** A concrete index

    The spec's scenario: a 10 x 10 x 10 box with cell width 2.0, hence a
    5 x 5 x 5 grid, holding point 0 at (0,0,0) (cell 62) and point 1 at
    (1,0,0) (cell 63).  The cell list has 2 + 125 slots: the two link slots,
    then the 125 chain heads. *)
Definition example_cell_list : list Z :=
  replicate 64 LINK_CELL_TERMINATOR ++ [0; 1] ++ replicate 61 LINK_CELL_TERMINATOR.

Definition float_two : spec_float := S754_finite false 8388608 (-22).

Definition example_linkcell : LinkCell :=
  mkLinkCell (Index3D_new 5 5 5) 2 float_two example_cell_list false.

(** The cursor over cell 62 of the example after its chain has been drained:
    [next()] returned point 0, then the terminator. *)
Definition example_cursor_at_end : IteratorLinkCell :=
  mkIteratorLinkCell (Some example_cell_list) 2 125 LINK_CELL_TERMINATOR 62.

(** ** The neighbor-compute drivers (NeighborComputeFunctional.h) *)

(** The fourth argument of the pairwise callback: a [float] read from the
    bond list, or the [int] literal the live-query loop passes. *)
Inductive weight_arg : Type :=
| weight_float (w : spec_float)
| weight_int (n : Z).

(** One invocation [cf(i, j, distance, weight)] of the caller's function. *)
Record cf_call : Type := mkcf_call {
  call_i : Z;
  call_j : Z;
  call_distance : spec_float;
  call_weight : weight_arg
}.

(** [tbb::parallel_for] over a [blocked_range [b, e)]: the range is split
    recursively, the body runs once on every leaf subrange, and the runs of
    different leaves overlap in time.  A run is described by the sequence of
    callback invocations in the order they happened: any interleaving of the
    sequences of the two halves of a split. *)
Inductive interleave {A : Type} : list A -> list A -> list A -> Prop :=
| interleave_nil : interleave [] [] []
| interleave_left x l r t : interleave l r t -> interleave (x :: l) r (x :: t)
| interleave_right x l r t : interleave l r t -> interleave l (x :: r) (x :: t).

Inductive parallel_for {A : Type} (body : nat -> nat -> option (list A))
  : nat -> nat -> list A -> Prop :=
| parallel_leaf b e t :
    (b <= e)%nat -> body b e = Some t -> parallel_for body b e t
| parallel_split b m e tl tr t :
    (b < m < e)%nat ->
    parallel_for body b m tl -> parallel_for body m e tr ->
    interleave tl tr t ->
    parallel_for body b e t.

(** [for_loop_wrapper(parallel, begin, end, body)]. *)
Definition for_loop_wrapper {A : Type} (parallel : bool) (b e : nat)
    (body : nat -> nat -> option (list A)) (t : list A) : Prop :=
  if parallel then parallel_for body b e t else body b e = Some t.

(** The bond-list collaborator [NeighborList] is declared in NeighborList.h,
    which is not among the sources; the driver reads it through four
    accessors only: the flat array of id pairs, the bond count, the
    distances and the weights. *)
Record NeighborList : Type := mkNeighborList {
  getNeighbors : list Z;             (* size_t[2 * n_bonds] *)
  getNumBonds : nat;                 (* size_t *)
  getDistances : list spec_float;    (* float[n_bonds] *)
  getWeights : list spec_float       (* float[n_bonds] *)
}.

(** The arrays hold what the bond count announces. *)
Definition NeighborList_ok (nl : NeighborList) : Prop :=
  length (getNeighbors nl) = (2 * getNumBonds nl)%nat /\
  length (getDistances nl) = getNumBonds nl /\
  length (getWeights nl) = getNumBonds nl.

(** The call the loop body makes for one bond; [None] when one of the four
    reads is outside its array. *)
Definition bond_call (nl : NeighborList) (bond : nat) : option cf_call :=
  i ← getNeighbors nl !! (2 * bond)%nat;
  j ← getNeighbors nl !! (2 * bond + 1)%nat;
  d ← getDistances nl !! bond;
  w ← getWeights nl !! bond;
  Some (mkcf_call i j d (weight_float w)).

(** The body handed to [parallel_for] by [loop_over_NeighborList_parallel]:
    [for (bond = r.begin(); bond != r.end(); ++bond)], as [count] iterations
    from [bond]. *)
Fixpoint bond_loop (nl : NeighborList) (bond count : nat) : option (list cf_call) :=
  match count with
  | O => Some []
  | S c =>
      call ← bond_call nl bond;
      rest ← bond_loop nl (S bond) c;
      Some (call :: rest)
  end.

Definition bond_body (nl : NeighborList) (b e : nat) : option (list cf_call) :=
  bond_loop nl b (e - b).

(** [loop_over_NeighborList_parallel(nlist, cf)]: the callback invocations of
    one run. *)
Definition loop_over_NeighborList_parallel (nl : NeighborList) (t : list cf_call) : Prop :=
  parallel_for (bond_body nl) 0 (getNumBonds nl) t.

(** [NeighborPoint] as the live-query loop reads it (NeighborQuery.h is not
    among the sources). *)
Record NeighborPoint : Type := mkNeighborPoint {
  ref_id : Z;              (* unsigned int *)
  distance : spec_float
}.

(** Modelled from the spec: the query iterators of NeighborQuery.h, which is
    not among the sources: "a lazy, finite, one-pass sequence of neighbor
    bonds per query point"; [iter_query i] is [iter->query(i)], [iter_next]
    is [it->next()] and [iter_end] is [it->end()].  Nothing is assumed of an
    implementation: it may or may not filter the query point itself. *)
Record NeighborQueryIterator : Type := mkNeighborQueryIterator {
  iter_state : Type;
  iter_query : nat -> iter_state;
  iter_next : iter_state -> iter_state * NeighborPoint;
  iter_end : iter_state -> bool
}.

Record QueryArgs : Type := mkQueryArgs { exclude_ii : bool }.

(** [ref_points]: either a [RawPoints] object, over which the driver builds
    an [AABBQuery] and queries that, or a query structure that is queried
    directly. *)
Record NeighborQuery : Type := mkNeighborQuery {
  is_RawPoints : bool;
  aabb_queryWithArgs : NeighborQueryIterator;
  queryWithArgs : NeighborQueryIterator
}.

(** The [while (!it->end())] loop for query point [i], at most [fuel]
    iterations: the invocations made during those iterations. *)
Fixpoint drain (Q : NeighborQueryIterator) (qargs : QueryArgs) (i : nat) (fuel : nat)
    (it : iter_state Q) (np : NeighborPoint) : list cf_call :=
  match fuel with
  | O => []
  | S f =>
      if iter_end Q it then []
      else
        let calls :=
          if negb (exclude_ii qargs) || negb (Z.of_nat i =? ref_id np)
          then [mkcf_call (ref_id np) (Z.of_nat i) (distance np) (weight_int 1)]
          else [] in
        let '(it', np') := iter_next Q it in
        calls ++ drain Q qargs i f it' np'
  end.

(** The body handed to [for_loop_wrapper] by the live-query branch. *)
Fixpoint query_loop (Q : NeighborQueryIterator) (qargs : QueryArgs) (fuel : nat)
    (i count : nat) : list cf_call :=
  match count with
  | O => []
  | S c =>
      let '(it, np) := iter_next Q (iter_query Q i) in
      drain Q qargs i fuel it np ++ query_loop Q qargs fuel (S i) c
  end.

Definition query_body (Q : NeighborQueryIterator) (qargs : QueryArgs) (fuel : nat)
    (b e : nat) : option (list cf_call) :=
  Some (query_loop Q qargs fuel b (e - b)).

(** [loop_over_NeighborList(ref_points, points, Np, qargs, nlist, cf)]:
    [nlist] is [Some] bond list or [None] for the null pointer. *)
Definition loop_over_NeighborList (ref_points : NeighborQuery) (Np : nat)
    (qargs : QueryArgs) (nlist : option NeighborList) (fuel : nat)
    (t : list cf_call) : Prop :=
  match nlist with
  | Some nl => loop_over_NeighborList_parallel nl t
  | None =>
      let iter := if is_RawPoints ref_points
                  then aabb_queryWithArgs ref_points
                  else queryWithArgs ref_points in
      for_loop_wrapper true 0 Np (query_body iter qargs fuel) t
  end.

(** An iterator that walks a fixed list of neighbors per query point and
    filters nothing. *)
Definition list_iterator (neighbors : nat -> list NeighborPoint) : NeighborQueryIterator :=
  mkNeighborQueryIterator
    (option (list NeighborPoint))
    (fun i => Some (neighbors i))
    (fun s => match s with
              | Some (np :: rest) => (Some rest, np)
              | _ => (None, mkNeighborPoint 4294967295 (S754_zero false))
              end)
    (fun s => match s with None => true | Some _ => false end).

Definition float_one : spec_float := S754_finite false 8388608 (-23).

(** The bond list of the spec's scenario: the single bond between point 1
    and point 0 at distance 1, weight 1. *)
Definition example_nlist : NeighborList :=
  mkNeighborList [1; 0] 1 [float_one] [float_one].

(** ** Per-worker scratch arrays: [ETSArrayWrapper] *)

(** The free store: allocated arrays by address. *)
Definition loc : Type := positive.

(** How a [tbb::enumerable_thread_specific<T*>] builds the element of a
    worker on its first access: the two lambdas of the file. *)
Inductive ets_finit : Type :=
| finit_nullptr      (* [](){ return nullptr; } *)
| finit_new_array.   (* [this](){ return makeNewEmptyArray<T>(m_size); } *)

(** The elements created so far, by worker; a [T*] is [None] for
    [nullptr]. *)
Record enumerable_thread_specific : Type := mkets {
  ets_init : ets_finit;
  ets_elements : gmap nat (option loc)
}.

Record ETSArrayWrapper : Type := mkETSArrayWrapper {
  array : enumerable_thread_specific;
  m_size : Z
}.

Section ScratchArrays.

Context {T : Type} (zero : T).

(** [makeNewEmptyArray<T>(size)]: a fresh array of [size] elements, every
    byte cleared. *)
Definition makeNewEmptyArray (size : Z) (h : gmap loc (list T)) : loc * gmap loc (list T) :=
  let tmp := fresh (dom h) in
  (tmp, <[tmp := replicate (Z.to_nat size) zero]> h).

(** [array.local()] called by worker [tid]: the worker's pointer, created by
    the initialiser on the first access. *)
Definition local (tid : nat) (w : ETSArrayWrapper) (h : gmap loc (list T))
    : option loc * ETSArrayWrapper * gmap loc (list T) :=
  match ets_elements (array w) !! tid with
  | Some p => (p, w, h)
  | None =>
      match ets_init (array w) with
      | finit_nullptr =>
          (None,
           mkETSArrayWrapper
             (mkets finit_nullptr (<[tid := None]> (ets_elements (array w)))) (m_size w),
           h)
      | finit_new_array =>
          let '(p, h') := makeNewEmptyArray (m_size w) h in
          (Some p,
           mkETSArrayWrapper
             (mkets finit_new_array (<[tid := Some p]> (ets_elements (array w)))) (m_size w),
           h')
      end
  end.

(** [delete[] p]. *)
Definition delete_array (p : option loc) (h : gmap loc (list T)) : gmap loc (list T) :=
  match p with
  | Some l => delete l h
  | None => h
  end.

(** [deleteArray()]: [delete[]] on every element of [array]. *)
Definition deleteArray (w : ETSArrayWrapper) (h : gmap loc (list T)) : gmap loc (list T) :=
  foldr delete_array h (snd <$> map_to_list (ets_elements (array w))).

(** [update(size)]. *)
Definition update (size : Z) (w : ETSArrayWrapper) (h : gmap loc (list T))
    : ETSArrayWrapper * gmap loc (list T) :=
  (mkETSArrayWrapper (mkets finit_new_array ∅) size, deleteArray w h).

(** A read [p[i]] through a worker's pointer; [None] where it is
    undefined. *)
Definition buffer_read (p : option loc) (i : nat) (h : gmap loc (list T)) : option T :=
  l ← p; a ← h !! l; a !! i.

(** What workers do with the wrapper between two updates: fetch their
    pointer, and store into their own array. *)
Inductive worker_op : Type :=
| op_local (tid : nat)
| op_store (tid : nat) (i : nat) (v : T).

Definition run_op (op : worker_op) (st : ETSArrayWrapper * gmap loc (list T))
    : option (ETSArrayWrapper * gmap loc (list T)) :=
  match op with
  | op_local tid =>
      let '(_, w, h) := local tid (fst st) (snd st) in Some (w, h)
  | op_store tid i v =>
      let '(p, w, h) := local tid (fst st) (snd st) in
      l ← p; a ← h !! l;
      if decide (i < length a)%nat then Some (w, <[l := <[i := v]> a]> h) else None
  end.

Fixpoint run_ops (ops : list worker_op) (st : ETSArrayWrapper * gmap loc (list T))
    : option (ETSArrayWrapper * gmap loc (list T)) :=
  match ops with
  | [] => Some st
  | op :: rest => st' ← run_op op st; run_ops rest st'
  end.

End ScratchArrays.

(** The default constructor and the sized constructor. *)
Definition ETSArrayWrapper_default : ETSArrayWrapper :=
  mkETSArrayWrapper (mkets finit_nullptr ∅) 0.

Definition ETSArrayWrapper_sized (size : Z) : ETSArrayWrapper :=
  mkETSArrayWrapper (mkets finit_new_array ∅) size.
(** What C7 asks of an invocation made by the live-query loop. *)
Definition live_call_ok (qargs : QueryArgs) (c : cf_call) : Prop :=
  (exclude_ii qargs = true -> call_i c <> call_j c) /\ call_weight c = weight_int 1.

(** An index over two points whose iterator reports, for each query point,
    the point itself and then the other one. *)
Definition example_query : NeighborQuery :=
  let it := list_iterator (fun i =>
              [mkNeighborPoint (Z.of_nat i) (S754_zero false);
               mkNeighborPoint (1 - Z.of_nat i) float_one]) in
  mkNeighborQuery false it it.

(** ** Further bookkeeping: the cube of the class comment

    [for (IteratorCellShell iter(0, is2D); iter != IteratorCellShell(R, is2D); ++iter)]:
    the offsets emitted on the way from shell 0 to the start of shell [R]. *)
Definition cube_offsets (fuel : nat) (R : Z) (is2D : bool) : option (list vec3) :=
  shell_loop fuel (IteratorCellShell_new 0 is2D) (IteratorCellShell_new R is2D).

(** Number of offsets at Chebyshev distance below [R]. *)
Definition cube_size (R : Z) (is2D : bool) : Z :=
  if R =? 0 then 0
  else if is2D then (2 * R - 1) * (2 * R - 1)
  else (2 * R - 1) * (2 * R - 1) * (2 * R - 1).
(** The position at which the walk over shell [N] emits the offset [p]:
    the four side wedges first (+y with x ascending, +x with y descending,
    -y with x descending, -x with y ascending; in 3D each wedge row by row
    with z ascending from [-N+1] to [N-1]), then in 3D the cap [z = -N] and
    the cap [z = +N], each row by row with x running fastest and y
    ascending. *)
Definition shell_position (N : Z) (is2D : bool) (p : vec3) : Z :=
  shell_rank (shell_state_of N is2D p).

(** What a 2D iterator keeps: [z] stays 0, and the stage is one of the four
    wedges or, for shell 0 only, the last stage at the origin. *)
Definition shell_planar (s : IteratorCellShell) : Prop :=
  m_current_z s = 0 /\
  (0 <= m_stage s <= 3 \/
   (m_stage s = 5 /\ m_range s = 0 /\ m_current_x s = 0 /\ m_current_y s = 0)).
(** ** The loop over one cell's chain

    The loop of the class comment,
    [for (i = it.next(); !it.atEnd(); i = it.next())], collecting the
    indices the body sees.  It either ends with the list of indices, runs
    out of its iteration budget, or makes an undefined read. *)
Inductive chain_result : Type :=
| chain_done (l : list Z)
| chain_out_of_fuel
| chain_undefined.

Fixpoint cell_loop (fuel : nat) (it : IteratorLinkCell) : chain_result :=
  match next it with
  | None => chain_undefined
  | Some (it', i) =>
      if atEnd it' then chain_done []
      else match fuel with
           | O => chain_out_of_fuel
           | S f =>
               match cell_loop f it' with
               | chain_done l => chain_done (i :: l)
               | r => r
               end
           end
  end.

(** Every link points to an earlier point, as in a list built by linking
    each point, in input order, to the previous head of its cell. *)
Definition links_decrease (cell_list : list Z) (Np : Z) : Prop :=
  forall p v, 0 <= p < Np -> cell_list !! Z.to_nat p = Some v ->
    v = LINK_CELL_TERMINATOR \/ v < p.
(** The neighbors an iterator reports for a query point: the results of the
    successive [next()] up to the first after which [end()] holds, at most
    [fuel] of them. *)
Fixpoint reported (Q : NeighborQueryIterator) (fuel : nat)
    (it : iter_state Q) (np : NeighborPoint) : list NeighborPoint :=
  match fuel with
  | O => []
  | S f =>
      if iter_end Q it then []
      else let '(it', np') := iter_next Q it in np :: reported Q f it' np'
  end.

(** The iterator the live-query branch drains. *)
Definition live_iterator (ref_points : NeighborQuery) : NeighborQueryIterator :=
  if is_RawPoints ref_points
  then aabb_queryWithArgs ref_points
  else queryWithArgs ref_points.

(** A bond list with a bond from point 3 to itself. *)
Definition example_self_nlist : NeighborList :=
  mkNeighborList [3; 3; 3; 4] 2 [S754_zero false; float_one] [float_one; float_one].
(** ** The life of a wrapper

    Between construction and destruction the owner calls [update] and the
    workers fetch and store. *)
Inductive life_op {T : Type} : Type :=
| life_worker (op : worker_op (T := T))
| life_update (size : Z).

Arguments life_op : clear implicits.

Definition run_life_op {T : Type} (zero : T) (op : life_op T)
    (st : ETSArrayWrapper * gmap loc (list T))
    : option (ETSArrayWrapper * gmap loc (list T)) :=
  match op with
  | life_worker o => run_op zero o st
  | life_update size => Some (update size (fst st) (snd st))
  end.

Fixpoint run_life {T : Type} (zero : T) (ops : list (life_op T))
    (st : ETSArrayWrapper * gmap loc (list T))
    : option (ETSArrayWrapper * gmap loc (list T)) :=
  match ops with
  | [] => Some st
  | op :: rest => st' ← run_life_op zero op st; run_life zero rest st'
  end.

(** The destructor [~ETSArrayWrapper()]: what it leaves of the free store. *)
Definition ETSArrayWrapper_destroy {T : Type} (w : ETSArrayWrapper)
    (h : gmap loc (list T)) : gmap loc (list T) :=
  deleteArray w h.

(** The arrays of a wrapper relative to the free store [h0] it was
    constructed in: every array a worker holds was allocated after
    construction and is still allocated, no two workers hold the same
    array, and the rest of the free store is as it was. *)
Definition owns_exactly {T : Type} (h0 : gmap loc (list T))
    (st : ETSArrayWrapper * gmap loc (list T)) : Prop :=
  (forall tid l, ets_elements (array (fst st)) !! tid = Some (Some l) ->
     h0 !! l = None /\ is_Some (snd st !! l)) /\
  (forall t1 t2 l,
     ets_elements (array (fst st)) !! t1 = Some (Some l) ->
     ets_elements (array (fst st)) !! t2 = Some (Some l) -> t1 = t2) /\
  (forall l, (forall tid, ets_elements (array (fst st)) !! tid <> Some (Some l)) ->
     snd st !! l = h0 !! l).

(** * Properties *)

(** ** Machine integers *)

Lemma to_int_small v : -2147483648 <= v < 2147483648 -> to_int v = v.
Proof. unfold to_int. intros. rewrite Z.mod_small by lia. lia. Qed.

Lemma to_uint_small v : 0 <= v < 4294967296 -> to_uint v = v.
Proof. unfold to_uint. intros. now rewrite Z.mod_small by lia. Qed.

Lemma to_char_small v : -128 <= v < 128 -> to_char v = v.
Proof. unfold to_char. intros. rewrite Z.mod_small by lia. lia. Qed.

Lemma to_int_range v : -2147483648 <= to_int v < 2147483648.
Proof.
  unfold to_int. pose proof (Z.mod_pos_bound (v + 2147483648) 4294967296). lia.
Qed.

(** ** Normalising one step of the shell iterator *)

Ltac fold_stage :=
  change (0 + 1) with 1 in *; change (1 + 1) with 2 in *; change (2 + 1) with 3 in *;
  change (3 + 1) with 4 in *; change (4 + 1) with 5 in *; change (5 + 1) with 6 in *.

Ltac is_plain v :=
  lazymatch v with
  | context [to_int _] => fail
  | context [to_uint _] => fail
  | context [to_char _] => fail
  | context [Z.b2z _] => fail
  | _ => idtac
  end.

Ltac int_norm :=
  unfold iadd, isub, imul, ineg; fold_stage;
  rewrite ?Z.geb_leb, ?Z.gtb_ltb;
  repeat first
    [ progress cbn [Z.b2z]
    | match goal with
      | |- context [to_int ?v] => is_plain v; rewrite (to_int_small v) by lia
      | |- context [to_uint ?v] => is_plain v; rewrite (to_uint_small v) by lia
      | |- context [to_char ?v] => is_plain v; rewrite (to_char_small v) by lia
      | |- context [?a <=? ?b] => is_plain a; is_plain b; destruct (Z.leb_spec a b)
      | |- context [?a <? ?b] => is_plain a; is_plain b; destruct (Z.ltb_spec a b)
      | |- context [?a =? ?b] => is_plain a; is_plain b; destruct (Z.eqb_spec a b)
      end ].

Ltac shell_fields := cbn [m_range m_is2D m_stage m_current_x m_current_y m_current_z].

Ltac shell_step :=
  unfold operator_incr, shell_rank, reset;
  cbn [m_range m_is2D m_stage m_current_x m_current_y m_current_z Z.eqb Pos.eqb];
  int_norm; shell_fields;
  try lia; try nia.

(** ** The walk over one shell *)

Lemma shell_fwd N d2 s :
  1 <= N < 1073741824 -> shell_inv N d2 s ->
  s = shell_last N d2 \/
  (shell_inv N d2 (operator_incr s) /\ shell_rank (operator_incr s) = shell_rank s + 1).
Proof.
  intros HN. destruct s as [r st x y z d]. unfold shell_inv, shell_last. shell_fields.
  intros (-> & -> & H). destruct d2.
  - destruct H as (-> & [H|[H|[H|H]]]); destruct H as (-> & -> & H).
    + right. split; [split; [|split]|]; shell_step.
    + right. split; [split; [|split]|]; shell_step.
    + right. split; [split; [|split]|]; shell_step.
    + destruct (Z.eq_dec y (N - 1)) as [->|Hy]; [now left|right].
      split; [split; [|split]|]; shell_step.
  - destruct H as [H|[H|[H|[H|[H|H]]]]]; destruct H as (-> & -> & H).
    + right. split; [split; [|split]|]; shell_step.
    + right. split; [split; [|split]|]; shell_step.
    + right. split; [split; [|split]|]; shell_step.
    + right. split; [split; [|split]|]; shell_step.
    + right. split; [split; [|split]|]; shell_step.
    + destruct (Z.eq_dec x N) as [->|Hx];
        [destruct (Z.eq_dec y N) as [->|Hy]; [now left|right]|right].
      * split; [split; [|split]|]; shell_step.
      * split; [split; [|split]|]; shell_step.
Qed.

Ltac shell_back :=
  unfold shell_pred; shell_fields; cbn [Z.eqb Pos.eqb];
  repeat match goal with
    | |- context [?a =? ?b] => destruct (Z.eqb_spec a b); try lia
    end;
  (split; [split; [|split]|split]);
  shell_step; try (f_equal; lia).

Lemma shell_bwd N d2 s :
  1 <= N < 1073741824 -> shell_inv N d2 s ->
  s = shell_first N d2 \/
  (shell_inv N d2 (shell_pred s) /\ operator_incr (shell_pred s) = s /\
   shell_rank (shell_pred s) = shell_rank s - 1).
Proof.
  intros HN. destruct s as [r st x y z d]. unfold shell_inv, shell_first. shell_fields.
  intros (-> & -> & H). destruct d2.
  - destruct H as (-> & [H|[H|[H|H]]]); destruct H as (-> & -> & H).
    + destruct (Z.eq_dec x (- N)) as [->|Hx]; [now left|right]. shell_back.
    + right. shell_back.
    + right. shell_back.
    + right. shell_back.
  - destruct H as [H|[H|[H|[H|[H|H]]]]]; destruct H as (-> & -> & H).
    + destruct (Z.eq_dec x (- N)) as [->|Hx];
        [destruct (Z.eq_dec z (- N + 1)) as [->|Hz]; [now left|right]|right];
        shell_back.
    + right. shell_back.
    + right. shell_back.
    + right. shell_back.
    + right. shell_back.
    + right. shell_back.
Qed.

Lemma shell_rank_bound N d2 s :
  1 <= N -> shell_inv N d2 s ->
  0 <= shell_rank s <= shell_rank (shell_last N d2).
Proof.
  intros HN. destruct s as [r st x y z d]. unfold shell_inv, shell_last, shell_rank.
  shell_fields. intros (-> & -> & H). destruct d2; shell_fields.
  - destruct H as (-> & [H|[H|[H|H]]]); destruct H as (-> & -> & H); lia.
  - destruct H as [H|[H|[H|[H|[H|H]]]]]; destruct H as (-> & -> & H); nia.
Qed.

Lemma shell_rank_first N d2 : shell_rank (shell_first N d2) = 0.
Proof. unfold shell_rank, shell_first. destruct d2; shell_fields; lia. Qed.

Lemma shell_rank_last N d2 :
  1 <= N -> shell_rank (shell_last N d2) + 1 = shell_size N d2.
Proof.
  intros HN. unfold shell_rank, shell_last, shell_size.
  destruct (Z.eqb_spec N 0); [lia|]. destruct d2; shell_fields; lia.
Qed.

Lemma shell_inv_first N d2 : 1 <= N -> shell_inv N d2 (shell_first N d2).
Proof. intros HN. unfold shell_inv, shell_first. destruct d2; shell_fields; lia. Qed.

Lemma shell_inv_last N d2 : 1 <= N -> shell_inv N d2 (shell_last N d2).
Proof. intros HN. unfold shell_inv, shell_last. destruct d2; shell_fields; lia. Qed.

Lemma shell_new_first N d2 :
  1 <= N < 1073741824 -> IteratorCellShell_new N d2 = shell_first N d2.
Proof.
  intros HN. unfold IteratorCellShell_new, reset, shell_first. shell_fields.
  destruct (Z.eqb_spec N 0); [lia|]. destruct d2; int_norm; reflexivity.
Qed.

Lemma shell_incr_last N d2 :
  1 <= N < 1073741824 ->
  operator_incr (shell_last N d2) = IteratorCellShell_new (N + 1) d2.
Proof.
  intros HN. unfold shell_last, IteratorCellShell_new.
  destruct d2; unfold operator_incr, reset; shell_fields; cbn [Z.eqb Pos.eqb];
    int_norm; shell_fields; int_norm; try lia; f_equal; lia.
Qed.

(** A state of the walk is determined by the offset it emits. *)
Lemma shell_inv_state_of N d2 s :
  1 <= N -> shell_inv N d2 s -> s = shell_state_of N d2 (operator_deref s).
Proof.
  intros HN. destruct s as [r st x y z d]. unfold shell_inv, shell_state_of, shell_stage_of.
  unfold operator_deref. cbn [m_range m_is2D m_stage m_current_x m_current_y m_current_z vx vy vz].
  intros (-> & -> & H). destruct d2; cbn [negb andb].
  - destruct H as (-> & [H|[H|[H|H]]]); destruct H as (-> & -> & H);
      repeat match goal with
        | |- context [?a =? ?b] => destruct (Z.eqb_spec a b); try lia
        | |- context [?a <? ?b] => destruct (Z.ltb_spec a b); try lia
        end; reflexivity.
  - destruct H as [H|[H|[H|[H|[H|H]]]]]; destruct H as (-> & -> & H);
      repeat match goal with
        | |- context [?a =? ?b] => destruct (Z.eqb_spec a b); try lia
        | |- context [?a <? ?b] => destruct (Z.ltb_spec a b); try lia
        end; reflexivity.
Qed.

(** Every state of the walk emits an offset of the shell... *)
Lemma shell_inv_sound N d2 s :
  1 <= N -> shell_inv N d2 s ->
  chebyshev (operator_deref s) = N /\ (d2 = true -> vz (operator_deref s) = 0).
Proof.
  intros HN. destruct s as [r st x y z d]. unfold shell_inv, chebyshev, operator_deref.
  cbn [m_range m_is2D m_stage m_current_x m_current_y m_current_z vx vy vz].
  intros (-> & -> & H). destruct d2.
  - destruct H as (-> & [H|[H|[H|H]]]); lia.
  - destruct H as [H|[H|[H|[H|[H|H]]]]]; split; (lia || discriminate).
Qed.

(** ... and every offset of the shell is emitted by a state of the walk. *)
Lemma shell_inv_complete N d2 p :
  1 <= N -> chebyshev p = N -> (d2 = true -> vz p = 0) ->
  shell_inv N d2 (shell_state_of N d2 p) /\ operator_deref (shell_state_of N d2 p) = p.
Proof.
  intros HN. destruct p as [x y z]. unfold shell_inv, shell_state_of, shell_stage_of, chebyshev.
  unfold operator_deref. cbn [m_range m_is2D m_stage m_current_x m_current_y m_current_z vx vy vz].
  intros Hc Hz. split; [|reflexivity]. split; [reflexivity|]. split; [reflexivity|].
  destruct d2; cbn [negb andb].
  - specialize (Hz eq_refl). subst z.
    repeat match goal with
      | |- context [?a =? ?b] => destruct (Z.eqb_spec a b)
      | |- context [?a <? ?b] => destruct (Z.ltb_spec a b)
      end; cbn [andb]; lia.
  - clear Hz.
    repeat match goal with
      | |- context [?a =? ?b] => destruct (Z.eqb_spec a b)
      | |- context [?a <? ?b] => destruct (Z.ltb_spec a b)
      end; cbn [andb]; lia.
Qed.

(** ** Ranked walks

    A walk [init, step init, ...] whose states carry a position [rank]:
    if every state but [last] steps to the state of the next position, and
    every state but [init] has a predecessor in the walk, then the walk
    visits each state satisfying the invariant exactly at its position. *)

Lemma iterate_succ {A : Type} (f : A -> A) (n : nat) (a : A) :
  iterate f (S n) a = f (iterate f n a).
Proof.
  revert a. induction n as [|n IH]; intros a; [reflexivity|].
  change (iterate f (S (S n)) a) with (iterate f (S n) (f a)).
  rewrite IH. reflexivity.
Qed.

Section RankedWalk.

Context {St : Type}.
Variables (step : St -> St) (Inv : St -> Prop) (rank : St -> Z) (init last : St).

Hypothesis Hinit : Inv init.
Hypothesis Hrank_init : rank init = 0.
Hypothesis Hbound : forall s, Inv s -> 0 <= rank s <= rank last.
Hypothesis Hfwd :
  forall s, Inv s -> s = last \/ (Inv (step s) /\ rank (step s) = rank s + 1).
Hypothesis Hbwd :
  forall s, Inv s ->
    s = init \/ exists s', Inv s' /\ step s' = s /\ rank s' = rank s - 1.

Lemma walk_visits_forward (n : nat) :
  Z.of_nat n <= rank last ->
  Inv (iterate step n init) /\ rank (iterate step n init) = Z.of_nat n.
Proof.
  induction n as [|n IH]; intros Hn.
  - split; [exact Hinit | exact Hrank_init].
  - destruct IH as [HI HR]; [lia|].
    rewrite iterate_succ.
    destruct (Hfwd _ HI) as [Hl | [HI' HR']].
    + rewrite Hl in HR. lia.
    + split; [exact HI' | lia].
Qed.

Lemma walk_visits_backward (s : St) :
  Inv s -> iterate step (Z.to_nat (rank s)) init = s.
Proof.
  remember (Z.to_nat (rank s)) as n eqn:Hn. revert s Hn.
  induction n as [|n IH]; intros s Hn HI.
  - destruct (Hbwd _ HI) as [-> | (s' & HI' & _ & HR')]; [reflexivity|].
    pose proof (Hbound _ HI). pose proof (Hbound _ HI'). lia.
  - destruct (Hbwd _ HI) as [-> | (s' & HI' & Hs & HR')]; [lia|].
    rewrite iterate_succ, (IH s'); [exact Hs | | exact HI'].
    pose proof (Hbound _ HI'). lia.
Qed.

Lemma walk_reaches_last : iterate step (Z.to_nat (rank last)) init = last.
Proof.
  apply walk_visits_backward.
  destruct (walk_visits_forward 0) as [HI _]; [pose proof (Hbound _ Hinit); lia|].
  clear HI.
  assert (Hn : Z.of_nat (Z.to_nat (rank last)) <= rank last)
    by (pose proof (Hbound _ Hinit); lia).
  destruct (walk_visits_forward _ Hn) as [HI HR].
  remember (iterate step (Z.to_nat (rank last)) init) as t.
  destruct (Hfwd _ HI) as [-> | [HI' HR']]; [exact HI|].
  pose proof (Hbound _ HI'). pose proof (Hbound _ Hinit). lia.
Qed.

End RankedWalk.

(** ** The driving loop *)

Lemma shell_loop_run (n : nat) : forall it last fuel,
  (forall i, (i < n)%nat -> operator_eq (advance i it) last = false) ->
  operator_eq (advance n it) last = true ->
  (n <= fuel)%nat ->
  shell_loop fuel it last = Some ((fun i => operator_deref (advance i it)) <$> seq 0 n).
Proof.
  induction n as [|n IH]; intros it last fuel Hne Heq Hfuel.
  - cbn in Heq. destruct fuel; cbn; rewrite Heq; reflexivity.
  - destruct fuel as [|fuel]; [lia|]. cbn [shell_loop].
    assert (H0 : operator_eq it last = false) by (apply (Hne 0%nat); lia).
    rewrite H0.
    rewrite (IH (operator_incr it) last fuel); [| |exact Heq|lia].
    + cbn [fmap option_fmap option_map seq list_fmap].
      rewrite <- seq_shift, <- list_fmap_compose. reflexivity.
    + intros i Hi. apply (Hne (S i)). lia.
Qed.

Lemma operator_eq_true a b :
  operator_eq a b = true <->
  m_range a = m_range b /\ m_stage a = m_stage b /\
  m_current_x a = m_current_x b /\ m_current_y a = m_current_y b /\
  m_current_z a = m_current_z b /\ m_is2D a = m_is2D b.
Proof.
  unfold operator_eq. rewrite !andb_true_iff, !Z.eqb_eq, Bool.eqb_true_iff. tauto.
Qed.

Lemma operator_eq_refl a : operator_eq a a = true.
Proof. apply operator_eq_true. repeat split. Qed.

Lemma operator_eq_range_ne a b : m_range a <> m_range b -> operator_eq a b = false.
Proof.
  intros Hne. destruct (operator_eq a b) eqn:E; [|reflexivity].
  apply operator_eq_true in E. tauto.
Qed.

Lemma shell_walk N d2 :
  1 <= N < 1073741824 ->
  let T := Z.to_nat (shell_size N d2) in
  (forall fuel, (T <= fuel)%nat ->
     shell_offsets fuel N d2 =
       Some ((fun i => operator_deref (advance i (shell_first N d2))) <$> seq 0 T)) /\
  (forall i, (i < T)%nat -> shell_inv N d2 (advance i (shell_first N d2)) /\
                            shell_rank (advance i (shell_first N d2)) = Z.of_nat i) /\
  (forall s, shell_inv N d2 s -> exists i, (i < T)%nat /\ advance i (shell_first N d2) = s).
Proof.
  intros HN T.
  assert (H1 : 1 <= N) by lia.
  pose proof (shell_rank_last N d2 H1) as HT.
  pose proof (shell_rank_bound N d2 _ H1 (shell_inv_first N d2 H1)) as HB0.
  assert (HTn : T = S (Z.to_nat (shell_rank (shell_last N d2)))) by (unfold T; lia).
  assert (Hback : forall s, shell_inv N d2 s ->
            s = shell_first N d2 \/
            exists s', shell_inv N d2 s' /\ operator_incr s' = s /\
                       shell_rank s' = shell_rank s - 1).
  { intros s Hs. destruct (shell_bwd N d2 s HN Hs) as [->|H]; [now left|right].
    exists (shell_pred s). exact H. }
  assert (Hvisit : forall i, (i < T)%nat ->
            shell_inv N d2 (advance i (shell_first N d2)) /\
            shell_rank (advance i (shell_first N d2)) = Z.of_nat i).
  { intros i Hi. unfold advance.
    apply (walk_visits_forward operator_incr (shell_inv N d2) shell_rank
             (shell_first N d2) (shell_last N d2)).
    - apply shell_inv_first, H1.
    - apply shell_rank_first.
    - intros s Hs. apply shell_fwd; assumption.
    - lia. }
  split; [|split].
  - intros fuel Hfuel. unfold shell_offsets.
    rewrite (shell_new_first N d2 HN).
    apply shell_loop_run; [| |exact Hfuel].
    + intros i Hi. apply operator_eq_range_ne.
      destruct (Hvisit i Hi) as [(Hr & _) _]. rewrite Hr.
      unfold IteratorCellShell_new, reset; destruct (N + 1 =? 0); shell_fields;
        rewrite to_int_small; lia.
    + rewrite HTn. unfold advance. rewrite iterate_succ.
      rewrite (walk_reaches_last operator_incr (shell_inv N d2) shell_rank
                 (shell_first N d2) (shell_last N d2)).
      * rewrite shell_incr_last by exact HN. apply operator_eq_refl.
      * apply shell_inv_first, H1.
      * apply shell_rank_first.
      * intros s Hs. apply shell_rank_bound; assumption.
      * intros s Hs. apply shell_fwd; assumption.
      * exact Hback.
  - exact Hvisit.
  - intros s Hs. exists (Z.to_nat (shell_rank s)). split.
    + pose proof (shell_rank_bound N d2 s H1 Hs). lia.
    + unfold advance.
      apply (walk_visits_backward operator_incr (shell_inv N d2) shell_rank
               (shell_first N d2) (shell_last N d2)).
      * apply shell_rank_first.
      * intros s0 Hs0. apply shell_rank_bound; assumption.
      * exact Hback.
      * exact Hs.
Qed.

(** C1, as amended: for every range [N] with [0 <= N < 2^30] (the ranges
    for which no [int] operation of [operator++] overflows) and both
    dimensionality flags, walking an [IteratorCellShell] from the initial
    state of shell [N] until it first equals the initial state of shell
    [N + 1] terminates after [shell_size N is2D] steps and emits exactly the
    offsets at Chebyshev distance [N] from the origin, each once; in 2D every
    emitted offset has [dz = 0]; for [N = 0] the single offset (0,0,0) is
    emitted. *)
Theorem shell_walk_emits_exact_shell (N : Z) (is2D : bool) :
  0 <= N < 1073741824 ->
  emits_exact_shell N is2D /\
  exists l : list vec3,
    (forall fuel, (Z.to_nat (shell_size N is2D) <= fuel)%nat ->
       shell_offsets fuel N is2D = Some l) /\
    Z.of_nat (length l) = shell_size N is2D /\
    NoDup l /\
    (forall p, In p l <-> chebyshev p = N /\ (is2D = true -> vz p = 0)) /\
    (N = 0 -> l = [mkvec3 0 0 0]).
Proof.
  intros HN.
  assert (Hmain : exists l : list vec3,
    (forall fuel, (Z.to_nat (shell_size N is2D) <= fuel)%nat ->
       shell_offsets fuel N is2D = Some l) /\
    Z.of_nat (length l) = shell_size N is2D /\
    NoDup l /\
    (forall p, In p l <-> chebyshev p = N /\ (is2D = true -> vz p = 0)) /\
    (N = 0 -> l = [mkvec3 0 0 0])).
  { destruct (Z.eq_dec N 0) as [->|HN0].
    - exists [mkvec3 0 0 0]. split; [|split; [|split; [|split]]].
      + intros fuel Hfuel. unfold shell_offsets.
        assert (Hf : (1 <= fuel)%nat) by (destruct is2D; exact Hfuel).
        destruct is2D.
        * rewrite (shell_loop_run 1 _ _ fuel); [reflexivity| |reflexivity|exact Hf].
          intros i Hi. destruct i; [reflexivity|lia].
        * rewrite (shell_loop_run 1 _ _ fuel); [reflexivity| |reflexivity|exact Hf].
          intros i Hi. destruct i; [reflexivity|lia].
      + destruct is2D; reflexivity.
      + apply NoDup_singleton.
      + intros [x y z]. unfold chebyshev. cbn [In vx vy vz]. split.
        * intros [H|[]]. inversion H; subst. split; [reflexivity|auto].
        * intros [H _]. left. f_equal; lia.
      + reflexivity.
    - assert (HN1 : 1 <= N < 1073741824) by lia. assert (H1 : 1 <= N) by lia.
      destruct (shell_walk N is2D HN1) as (Hrun & Hvisit & Hall).
      set (T := Z.to_nat (shell_size N is2D)) in *.
      exists ((fun i => operator_deref (advance i (shell_first N is2D))) <$> seq 0 T).
      split; [exact Hrun|]. split; [|split; [|split]].
      + rewrite length_fmap, length_seq. unfold T.
        pose proof (shell_rank_last N is2D H1).
        pose proof (shell_rank_bound N is2D _ H1 (shell_inv_first N is2D H1)). lia.
      + apply NoDup_fmap_2_strong; [|apply NoDup_seq].
        intros i j Hi Hj Heq. apply elem_of_seq in Hi, Hj.
        destruct (Hvisit i) as [HIi HRi]; [lia|]. destruct (Hvisit j) as [HIj HRj]; [lia|].
        apply (shell_inv_state_of N is2D _ H1) in HIi, HIj.
        rewrite Heq in HIi. rewrite <- HIj in HIi. rewrite HIi in HRi. lia.
      + intros p. rewrite <- list_elem_of_In, list_elem_of_fmap. split.
        * intros (i & -> & Hi). apply elem_of_seq in Hi.
          destruct (Hvisit i) as [HIi _]; [lia|].
          apply (shell_inv_sound N is2D _ H1 HIi).
        * intros [Hc Hz].
          destruct (shell_inv_complete N is2D p H1 Hc Hz) as [HI Hd].
          destruct (Hall _ HI) as (i & Hi & Hs).
          exists i. split; [rewrite Hs; symmetry; exact Hd|].
          apply elem_of_seq. lia.
      + intros ->. lia. }
  split; [|exact Hmain].
  destruct Hmain as (l & Hrun & _ & Hnd & Hin & _).
  exists l. split; [|split; assumption].
  exists (Z.to_nat (shell_size N is2D)). apply Hrun. lia.
Qed.

Lemma shell_walk_emits_exact_shell_witness :
  (0 <= 2 < 1073741824 /\ emits_exact_shell 2 false) /\
  (0 <= 3 < 1073741824 /\ emits_exact_shell 3 true).
Proof.
  split; (split; [lia|]).
  - apply (shell_walk_emits_exact_shell 2 false). lia.
  - apply (shell_walk_emits_exact_shell 3 true). lia.
Defined.

(** C1 as stated fails outside the [int] range: the constructor takes an
    [unsigned int], stores it in an [int], and for [range = 4294967294] the
    stored range is [-2]; the walk to the start of shell [4294967295] emits
    four offsets at Chebyshev distance 2. *)
Lemma shell_walk_out_of_int_range : ~ emits_exact_shell 4294967294 true.
Proof.
  intros (l & (fuel & Hl) & _ & Hin).
  assert (Hrun : forall f, (4 <= f)%nat ->
            shell_offsets f 4294967294 true =
              Some [mkvec3 2 (-2) 0; mkvec3 (-2) (-2) 0; mkvec3 (-2) 2 0; mkvec3 2 2 0]).
  { intros f Hf. unfold shell_offsets.
    rewrite (shell_loop_run 4 _ _ f); [reflexivity| |reflexivity|exact Hf].
    intros i Hi. destruct i as [|[|[|[|i]]]]; [reflexivity..|lia]. }
  destruct (le_lt_dec 4 fuel) as [Hf|Hf].
  - rewrite (Hrun fuel Hf) in Hl. injection Hl as <-.
    destruct (proj1 (Hin (mkvec3 2 (-2) 0))) as [Hc _]; [left; reflexivity|].
    vm_compute in Hc. discriminate.
  - destruct fuel as [|[|[|[|fuel]]]]; [vm_compute in Hl; discriminate..|lia].
Qed.

(** ** Equality and progress of shell iterators *)

Lemma to_int_spec v :
  exists k, to_int v = v + 4294967296 * k /\ -2147483648 <= to_int v < 2147483648.
Proof.
  exists (- ((v + 2147483648) / 4294967296)). split; [|apply to_int_range].
  unfold to_int. rewrite Z.mod_eq by lia. lia.
Qed.

Lemma to_uint_spec v :
  exists k, to_uint v = v + 4294967296 * k /\ 0 <= to_uint v < 4294967296.
Proof.
  exists (- (v / 4294967296)). unfold to_uint. split.
  - rewrite Z.mod_eq by lia. lia.
  - apply Z.mod_pos_bound. lia.
Qed.

(** As [int_norm], but a conversion that may wrap is replaced by a fresh
    integer congruent to its argument modulo 2^32. *)
Ltac int_gen :=
  unfold iadd, isub, imul, ineg; fold_stage;
  rewrite ?Z.geb_leb, ?Z.gtb_ltb;
  repeat first
    [ progress cbn [Z.b2z]
    | match goal with
      | |- context [to_int ?v] =>
          is_plain v;
          first [ rewrite (to_int_small v) by lia
                | let k := fresh "k" in let t := fresh "t" in
                  destruct (to_int_spec v) as (k & ? & ?);
                  set (t := to_int v) in *; clearbody t ]
      | |- context [to_uint ?v] =>
          is_plain v;
          first [ rewrite (to_uint_small v) by lia
                | let k := fresh "k" in let t := fresh "t" in
                  destruct (to_uint_spec v) as (k & ? & ?);
                  set (t := to_uint v) in *; clearbody t ]
      | |- context [to_char ?v] => is_plain v; rewrite (to_char_small v) by lia
      | |- context [?a <=? ?b] => is_plain a; is_plain b; destruct (Z.leb_spec a b)
      | |- context [?a <? ?b] => is_plain a; is_plain b; destruct (Z.ltb_spec a b)
      | |- context [?a =? ?b] => is_plain a; is_plain b; destruct (Z.eqb_spec a b)
      end ].

Ltac shell_gen :=
  unfold operator_incr, reset;
  cbn [m_range m_is2D m_stage m_current_x m_current_y m_current_z Z.eqb Pos.eqb];
  int_gen; shell_fields;
  repeat (unfold reset; shell_fields; int_gen);
  try lia.

Ltac shell_by_stage st d :=
  let Hcase := fresh "Hcase" in
  assert (Hcase : st = 0 \/ st = 1 \/ st = 2 \/ st = 3 \/ st = 4 \/ st = 5) by lia;
  destruct Hcase as [->|[->|[->|[->|[->| ->]]]]]; destruct d.

Lemma shell_wf_new range d2 :
  0 <= range <= UINT_MAX -> shell_wf (IteratorCellShell_new range d2).
Proof.
  unfold UINT_MAX. intros Hr.
  unfold shell_wf, IteratorCellShell_new, is_int, INT_MIN, INT_MAX.
  destruct d2; shell_gen.
Qed.

Lemma shell_wf_incr s : shell_wf s -> shell_wf (operator_incr s).
Proof.
  destruct s as [r st x y z d]. unfold shell_wf, is_int, INT_MIN, INT_MAX. shell_fields.
  intros (Hr & Hx & Hy & Hz & Hst & Hdeg).
  shell_by_stage st d; shell_gen.
Qed.

Lemma constructed_wf s : constructed s -> shell_wf s.
Proof.
  induction 1 as [range d2 Hr | it _ IH];
    [apply shell_wf_new, Hr | apply shell_wf_incr, IH].
Qed.

Lemma shell_progress s :
  shell_wf s ->
  (m_current_x (operator_incr s) <> m_current_x s \/
   m_current_y (operator_incr s) <> m_current_y s \/
   m_current_z (operator_incr s) <> m_current_z s) \/
  m_stage (operator_incr s) <> m_stage s.
Proof.
  destruct s as [r st x y z d]. unfold shell_wf, is_int, INT_MIN, INT_MAX. shell_fields.
  intros (Hr & Hx & Hy & Hz & Hst & Hdeg).
  shell_by_stage st d; shell_gen.
Qed.

(** Reachability matters for the progress property: the record with range
    -1, stage 5 and coordinates (0,0,0), which the constructor and
    [operator++] never produce, is sent by [operator++] to the start of
    shell 0, which has the same coordinates and stage. *)
Remark shell_progress_needs_constructed (is2D : bool) :
  operator_incr (mkIteratorCellShell (-1) 5 0 0 0 is2D)
  = mkIteratorCellShell 0 5 0 0 0 is2D.
Proof. destruct is2D; reflexivity. Qed.

(** C8: [operator==] holds exactly when range, stage, the three coordinates
    and the dimensionality flag agree; two instances constructed with the
    same arguments and advanced the same number of times compare equal; and
    for every instance obtained from the constructor by any number of
    [operator++], one more [operator++] changes the coordinate or the stage,
    so the result does not compare equal to the instance before the step. *)
Theorem operator_eq_fields_and_progress :
  (forall a b,
     operator_eq a b = true <->
     m_range a = m_range b /\ m_stage a = m_stage b /\
     operator_deref a = operator_deref b /\ m_is2D a = m_is2D b) /\
  (forall range1 flag1 range2 flag2 n,
     range1 = range2 -> flag1 = flag2 ->
     operator_eq (advance n (IteratorCellShell_new range1 flag1))
                 (advance n (IteratorCellShell_new range2 flag2)) = true) /\
  (forall it,
     constructed it ->
     (operator_deref (operator_incr it) <> operator_deref it \/
      m_stage (operator_incr it) <> m_stage it) /\
     operator_eq (operator_incr it) it = false /\
     operator_ne (operator_incr it) it = true).
Proof.
  split; [|split].
  - intros a b. rewrite operator_eq_true. unfold operator_deref. split.
    + intros (? & ? & ? & ? & ? & ?). repeat split; try assumption. congruence.
    + intros (? & ? & H & ?). inversion H. repeat split; assumption.
  - intros r1 f1 r2 f2 n -> ->. apply operator_eq_refl.
  - intros it Hc. pose proof (shell_progress it (constructed_wf it Hc)) as Hp.
    assert (Hd : operator_deref (operator_incr it) <> operator_deref it \/
                 m_stage (operator_incr it) <> m_stage it).
    { destruct Hp as [Hp|Hp]; [left|right; exact Hp].
      unfold operator_deref. intros E. inversion E. tauto. }
    assert (He : operator_eq (operator_incr it) it = false).
    { destruct (operator_eq (operator_incr it) it) eqn:E; [|reflexivity].
      apply operator_eq_true in E. destruct E as (_ & ? & ? & ? & ? & _).
      destruct Hd as [Hd|Hd]; [|contradiction].
      exfalso. apply Hd. unfold operator_deref. congruence. }
    split; [exact Hd|]. split; [exact He|]. unfold operator_ne. rewrite He. reflexivity.
Qed.

Lemma operator_eq_fields_and_progress_witness :
  constructed (advance 3 (IteratorCellShell_new 1 false)) /\
  operator_eq (advance 4 (IteratorCellShell_new 1 false))
              (advance 3 (IteratorCellShell_new 1 false)) = false.
Proof.
  assert (Hc : constructed (advance 3 (IteratorCellShell_new 1 false))).
  { unfold advance. cbn [iterate]. do 3 apply constructed_incr.
    apply constructed_new. unfold UINT_MAX. lia. }
  split; [exact Hc|].
  exact (proj1 (proj2 (proj2 (proj2 operator_eq_fields_and_progress) _ Hc))).
Defined.

(** ** [getCellIndex] *)

(** On a positive modulus the C++ idiom "remainder, then add the modulus
    if negative" is the mathematical modulo. *)
Lemma rem_fixup_mod a w :
  0 < w -> Z.rem a w + (if Z.rem a w <? 0 then w else 0) = a mod w.
Proof.
  intros Hw.
  pose proof (Z.mod_pos_bound a w Hw) as Hm.
  pose proof (Z.div_mod a w ltac:(lia)) as Hdm.
  pose proof (Z.quot_rem' a w) as Hqr.
  assert (Hrb : - w < Z.rem a w < w)
    by (pose proof (Z.rem_bound_abs a w ltac:(lia)); lia).
  destruct (Z.ltb_spec (Z.rem a w) 0) as [Hneg|Hpos].
  - apply (Z.mod_unique_pos a w (Z.quot a w - 1)); lia.
  - rewrite Z.add_0_r. apply (Z.mod_unique_pos a w (Z.quot a w)); lia.
Qed.

Lemma wrap_axis a w :
  is_int a -> 1 <= w <= INT_MAX ->
  to_uint (iadd (irem a (to_int w)) (if irem a (to_int w) <? 0 then to_int w else 0))
  = a mod w.
Proof.
  unfold is_int, INT_MIN, INT_MAX. intros Ha Hw.
  pose proof (Z.mod_pos_bound a w ltac:(lia)) as Hm.
  pose proof (rem_fixup_mod a w ltac:(lia)) as Hfix.
  assert (Hrb : - w < Z.rem a w < w)
    by (pose proof (Z.rem_bound_abs a w ltac:(lia)); lia).
  unfold irem, iadd. rewrite (to_int_small w) by lia.
  rewrite (to_int_small (Z.rem a w)) by lia.
  destruct (Z.rem a w <? 0) eqn:E.
  - rewrite to_int_small by lia. rewrite to_uint_small by lia. exact Hfix.
  - rewrite to_int_small by lia. rewrite to_uint_small by lia. exact Hfix.
Qed.

Lemma getCellIndex_mod lc c :
  grid_ok (getCellIndexer lc) -> int_coord c ->
  getCellIndex lc c =
    index3D_call (getCellIndexer lc)
      (vx c mod getW (getCellIndexer lc))
      (vy c mod getH (getCellIndexer lc))
      (vz c mod getD (getCellIndexer lc)).
Proof.
  intros (Hw & Hh & Hd) (Hx & Hy & Hz). unfold getCellIndex.
  rewrite !wrap_axis by assumption. reflexivity.
Qed.

(** C3: on a grid whose per-axis counts are between 1 and [INT_MAX], for
    every [int] cell coordinate [getCellIndex] reduces each axis into
    [[0, count)] by the mathematical modulo and returns the indexer's
    flattening of the reduced coordinate; hence a coordinate already in
    range is flattened unchanged, and shifting any axis by an integer
    multiple of its count does not change the result. *)
Theorem getCellIndex_true_modulo (lc : LinkCell) :
  grid_ok (getCellIndexer lc) ->
  let idx := getCellIndexer lc in
  (forall c, int_coord c ->
     getCellIndex lc c =
       index3D_call idx (vx c mod getW idx) (vy c mod getH idx) (vz c mod getD idx) /\
     0 <= vx c mod getW idx < getW idx /\
     0 <= vy c mod getH idx < getH idx /\
     0 <= vz c mod getD idx < getD idx) /\
  (forall c, 0 <= vx c < getW idx -> 0 <= vy c < getH idx -> 0 <= vz c < getD idx ->
     getCellIndex lc c = index3D_call idx (vx c) (vy c) (vz c) /\
     getCellIndex lc (mkvec3 (vx c mod getW idx) (vy c mod getH idx) (vz c mod getD idx))
       = getCellIndex lc c) /\
  (forall c kx ky kz,
     int_coord c ->
     int_coord (mkvec3 (vx c + kx * getW idx) (vy c + ky * getH idx) (vz c + kz * getD idx)) ->
     getCellIndex lc
       (mkvec3 (vx c + kx * getW idx) (vy c + ky * getH idx) (vz c + kz * getD idx))
     = getCellIndex lc c).
Proof.
  intros Hg idx. pose proof Hg as (Hw & Hh & Hd). fold idx in Hw, Hh, Hd.
  unfold INT_MAX in *.
  split; [|split].
  - intros c Hc. split; [apply getCellIndex_mod; assumption|].
    repeat split; apply Z.mod_pos_bound; lia.
  - intros c Hx Hy Hz.
    assert (Hc : int_coord c) by (unfold int_coord, is_int, INT_MIN, INT_MAX; lia).
    rewrite (Z.mod_small (vx c)), (Z.mod_small (vy c)), (Z.mod_small (vz c)) by lia.
    destruct c as [x y z]; cbn [vx vy vz] in *. split; [|reflexivity].
    rewrite getCellIndex_mod by assumption. cbn [vx vy vz]. fold idx.
    rewrite !Z.mod_small by lia. reflexivity.
  - intros c kx ky kz Hc Hc'.
    rewrite !getCellIndex_mod by assumption. cbn [vx vy vz]. fold idx.
    rewrite !Z.mod_add by lia. reflexivity.
Qed.

Lemma getCellIndex_true_modulo_witness :
  grid_ok (getCellIndexer example_linkcell) /\
  int_coord (mkvec3 (-1) 7 (-11)) /\
  getCellIndex example_linkcell (mkvec3 (-1) 7 (-11)) = 114 /\
  getCellIndex example_linkcell (mkvec3 4 2 4) = 114.
Proof.
  assert (Hg : grid_ok (getCellIndexer example_linkcell))
    by (unfold grid_ok, INT_MAX; cbn; lia).
  assert (Hc : int_coord (mkvec3 (-1) 7 (-11)))
    by (unfold int_coord, is_int, INT_MIN, INT_MAX; cbn; lia).
  split; [exact Hg|]. split; [exact Hc|]. split.
  - rewrite (proj1 (proj1 (getCellIndex_true_modulo example_linkcell Hg) _ Hc)).
    reflexivity.
  - reflexivity.
Defined.
(** ** The extra search width of the ball query *)

Lemma SFeqb_same_number a b : SFeqb a b = true <-> same_number a b.
Proof.
  unfold SFeqb, same_number.
  destruct a as [sa|sa| |sa ma ea], b as [sb|sb| |sb mb eb]; cbn [SFcompare];
    try destruct sa; try destruct sb;
    try solve [split; intros H;
               first [reflexivity | discriminate H | exact I | contradiction]].
  all: destruct (Z.compare_spec ea eb) as [->|Hlt|Hgt];
    [ change (Pos.compare_cont Eq ma mb) with (Pos.compare ma mb);
      destruct (Pos.compare_spec ma mb) as [->|Hm|Hm]; cbn [CompOpp];
      split; intros H; try reflexivity; try discriminate H;
      injection H as H; lia
    | split; intros H; [discriminate H | injection H as _ H; lia]
    | split; intros H; [discriminate H | injection H as _ H; lia] ].
Qed.

(** C4: the extra search width set by the constructor of the ball-query
    iterator is 0 exactly when [r_max == cell width] holds, that is when the
    two floats denote the same number, and 1 in every other case; it never
    has another value. *)
Theorem extra_search_width_zero_iff_equal
    (neighbor_query : LinkCell) (query_point : vec3f) (query_point_idx : Z)
    (r_max : spec_float) (exclude_ii : bool) (query_cell : Z) :
  let it := LinkCellQueryBallIterator_new neighbor_query query_point query_point_idx
              r_max exclude_ii query_cell in
  (m_extra_search_width it = 0 <-> same_number r_max (getCellWidth neighbor_query)) /\
  (m_extra_search_width it = 1 <-> ~ same_number r_max (getCellWidth neighbor_query)) /\
  (m_extra_search_width it = 0 \/ m_extra_search_width it = 1) /\
  m_r_max it = r_max.
Proof.
  cbn zeta. unfold LinkCellQueryBallIterator_new. cbn [m_extra_search_width m_r_max].
  pose proof (SFeqb_same_number r_max (getCellWidth neighbor_query)) as H.
  destruct (SFeqb r_max (getCellWidth neighbor_query)).
  - assert (Hs : same_number r_max (getCellWidth neighbor_query)) by (apply H; reflexivity).
    repeat split; auto; try discriminate; try tauto.
  - assert (Hs : ~ same_number r_max (getCellWidth neighbor_query))
      by (intros Hs; apply H in Hs; discriminate).
    repeat split; auto; try discriminate; try tauto.
Qed.

(** ** The cell-chain cursor *)

Lemma array_read_in_bounds (a : list Z) i :
  0 <= i < Z.of_nat (length a) -> is_Some (array_read (Some a) i).
Proof.
  intros Hi. unfold array_read. cbn [mbind option_bind].
  destruct (Z.ltb_spec i 0); [lia|]. apply lookup_lt_is_Some. lia.
Qed.

Lemma array_read_out_of_bounds (a : list Z) i :
  Z.of_nat (length a) <= i -> array_read (Some a) i = None.
Proof.
  intros Hi. unfold array_read. cbn [mbind option_bind].
  destruct (Z.ltb_spec i 0); [reflexivity|]. apply lookup_ge_None. lia.
Qed.

Lemma array_read_elem (a : list Z) i v : array_read (Some a) i = Some v -> v ∈ a.
Proof.
  unfold array_read. cbn [mbind option_bind].
  destruct (i <? 0); [discriminate|]. intros H.
  eapply list_elem_of_lookup_2. exact H.
Qed.

Lemma next_Some it it' v :
  next it = Some (it', v) ->
  array_read (it_cell_list it) (m_cur_idx it) = Some v /\
  it' = mkIteratorLinkCell (it_cell_list it) (m_Np it) (m_Nc it) v (m_cell it).
Proof.
  unfold next. destruct (array_read (it_cell_list it) (m_cur_idx it)) as [w|];
    cbn [mbind option_bind]; [|discriminate].
  intros H. injection H as <- <-. split; reflexivity.
Qed.

Lemma chain_cursor_inv cell_list Np Nc cell it :
  cell_list_ok cell_list Np Nc -> 0 <= cell < Nc ->
  chain_cursor cell_list Np Nc cell it ->
  it_cell_list it = Some cell_list /\
  (m_cur_idx it = LINK_CELL_TERMINATOR \/ 0 <= m_cur_idx it < Np).
Proof.
  intros (HNp & HNc & Hsum & Hlen & Hall) Hcell Hc.
  rewrite Forall_forall in Hall.
  induction Hc as [it v Hn | it it' v Hc IH Hend Hn].
  - apply next_Some in Hn. destruct Hn as [Hr ->].
    unfold IteratorLinkCell_new in *. cbn [it_cell_list m_cur_idx] in *.
    split; [reflexivity|]. apply Hall. eapply array_read_elem. exact Hr.
  - destruct IH as [Hl _]. apply next_Some in Hn. destruct Hn as [Hr ->].
    rewrite Hl in Hr |- *. cbn [it_cell_list m_cur_idx]. split; [reflexivity|].
    apply Hall. eapply array_read_elem. exact Hr.
Qed.

(** C5, as amended: the end of a chain is the queryable state [atEnd()]
    ([m_cur_idx == LINK_CELL_TERMINATOR]); on a well-formed cell list the
    first [next()] and every [next()] made while [atEnd()] is false read
    inside the array; a [next()] made once [atEnd()] is true reads index
    0xffffffff, outside the array, and is undefined. *)
Theorem chain_cursor_defined_until_end (cell_list : list Z) (Np Nc cell : Z) :
  cell_list_ok cell_list Np Nc -> 0 <= cell < Nc ->
  (forall it, atEnd it = true <-> m_cur_idx it = LINK_CELL_TERMINATOR) /\
  is_Some (next (IteratorLinkCell_new cell_list Np Nc cell)) /\
  (forall it, chain_cursor cell_list Np Nc cell it ->
     (atEnd it = false -> is_Some (next it)) /\
     (atEnd it = true -> next it = None)).
Proof.
  intros Hok Hcell. pose proof Hok as (HNp & HNc & Hsum & Hlen & Hall).
  split; [|split].
  - intros it. unfold atEnd. apply Z.eqb_eq.
  - unfold next, IteratorLinkCell_new. cbn [it_cell_list m_cur_idx].
    destruct (array_read_in_bounds cell_list (uadd Np cell)) as [v Hv].
    + unfold uadd. rewrite to_uint_small by lia. lia.
    + rewrite Hv. cbn. eauto.
  - intros it Hc.
    destruct (chain_cursor_inv _ _ _ _ _ Hok Hcell Hc) as [Hl Hcur].
    unfold atEnd, next. rewrite Hl. split; intros Hend.
    + apply Z.eqb_neq in Hend. destruct Hcur as [Hcur|Hcur]; [contradiction|].
      destruct (array_read_in_bounds cell_list (m_cur_idx it)) as [v Hv]; [lia|].
      rewrite Hv. cbn. eauto.
    + apply Z.eqb_eq in Hend. rewrite Hend.
      rewrite array_read_out_of_bounds; [reflexivity|].
      unfold LINK_CELL_TERMINATOR. lia.
Qed.

Lemma example_cell_list_ok : cell_list_ok example_cell_list 2 125.
Proof.
  unfold cell_list_ok. repeat split; try lia; try reflexivity.
  unfold example_cell_list. rewrite !Forall_app. split; [|split].
  - apply Forall_forall. intros v Hv. apply elem_of_replicate in Hv.
    left. tauto.
  - constructor; [right; lia|]. constructor; [right; lia|]. constructor.
  - apply Forall_forall. intros v Hv. apply elem_of_replicate in Hv.
    left. tauto.
Qed.

Lemma example_cursor_reached : chain_cursor example_cell_list 2 125 62 example_cursor_at_end.
Proof.
  eapply (cursor_next _ _ _ _
            (mkIteratorLinkCell (Some example_cell_list) 2 125 0 62) _ LINK_CELL_TERMINATOR).
  - eapply (cursor_first _ _ _ _ _ 0). reflexivity.
  - reflexivity.
  - reflexivity.
Qed.

Lemma chain_cursor_defined_until_end_witness :
  cell_list_ok example_cell_list 2 125 /\ 0 <= 62 < 125 /\
  is_Some (next (IteratorLinkCell_new example_cell_list 2 125 62)) /\
  next example_cursor_at_end = None.
Proof.
  assert (Hc : 0 <= 62 < 125) by lia.
  split; [exact example_cell_list_ok|]. split; [exact Hc|].
  pose proof (chain_cursor_defined_until_end example_cell_list 2 125 62
                example_cell_list_ok Hc) as (_ & Hfirst & Hrest).
  split; [exact Hfirst|].
  exact (proj2 (Hrest _ example_cursor_reached) eq_refl).
Defined.

(** C5 as stated fails: in the example index, after the chain of cell 62 has
    been drained ([atEnd()] is true), one more [next()] reads slot 0xffffffff
    of a 127-slot array. *)
Lemma next_after_end_undefined :
  chain_cursor example_cell_list 2 125 62 example_cursor_at_end /\
  atEnd example_cursor_at_end = true /\
  ~ next_after_end_defined example_cursor_at_end.
Proof.
  split; [exact example_cursor_reached|]. split; [reflexivity|].
  unfold next_after_end_defined. intros H. destruct (H eq_refl) as [r Hr].
  unfold next, example_cursor_at_end in Hr. cbn [it_cell_list m_cur_idx] in Hr.
  rewrite array_read_out_of_bounds in Hr; [discriminate Hr|].
  change (Z.of_nat (length example_cell_list)) with 127.
  unfold LINK_CELL_TERMINATOR. lia.
Qed.

(** ** Parallel loops *)

Lemma interleave_Permutation {A : Type} (l r t : list A) :
  interleave l r t -> Permutation t (l ++ r).
Proof.
  induction 1 as [|x l r t _ IH|x l r t _ IH].
  - reflexivity.
  - cbn. constructor. exact IH.
  - rewrite IH. apply Permutation_middle.
Qed.

Section ParallelFor.

Context {A : Type} (body : nat -> nat -> option (list A)).

(** The body does on [[b, e)] what it does on [[b, m)] and then on
    [[m, e)]. *)
Hypothesis body_split :
  forall b m e s, (b <= m <= e)%nat -> body b e = Some s ->
    exists s1 s2, body b m = Some s1 /\ body m e = Some s2 /\ s = s1 ++ s2.

Lemma parallel_for_Permutation b e t :
  parallel_for body b e t -> forall s, body b e = Some s -> Permutation t s.
Proof.
  induction 1 as [b e t Hbe Ht | b m e tl tr t Hm _ IHl _ IHr Hi]; intros s Hs.
  - rewrite Ht in Hs. injection Hs as ->. reflexivity.
  - destruct (body_split b m e s ltac:(lia) Hs) as (s1 & s2 & H1 & H2 & ->).
    rewrite (interleave_Permutation _ _ _ Hi), (IHl _ H1), (IHr _ H2). reflexivity.
Qed.

End ParallelFor.

Lemma parallel_for_Forall {A : Type} (body : nat -> nat -> option (list A))
    (P : A -> Prop) b e t :
  (forall b' e' s, body b' e' = Some s -> Forall P s) ->
  parallel_for body b e t -> Forall P t.
Proof.
  intros Hbody. induction 1 as [b e t _ Ht | b m e tl tr t _ _ IHl _ IHr Hi].
  - eapply Hbody, Ht.
  - apply interleave_Permutation in Hi. rewrite Hi. apply Forall_app. split; assumption.
Qed.

(** ** The loop over a bond list *)

Lemma bond_loop_app nl b c1 c2 s :
  bond_loop nl b (c1 + c2) = Some s ->
  exists s1 s2, bond_loop nl b c1 = Some s1 /\ bond_loop nl (b + c1) c2 = Some s2 /\
                s = s1 ++ s2.
Proof.
  revert b s. induction c1 as [|c1 IH]; intros b s Hs.
  - exists [], s. rewrite Nat.add_0_r. cbn in Hs |- *. auto.
  - cbn [Nat.add bond_loop] in Hs |- *.
    destruct (bond_call nl b) as [call|]; cbn [mbind option_bind] in Hs |- *;
      [|discriminate].
    destruct (bond_loop nl (S b) (c1 + c2)) as [rest|] eqn:E;
      cbn [mbind option_bind] in Hs; [|discriminate].
    injection Hs as <-.
    destruct (IH _ _ E) as (s1 & s2 & H1 & H2 & ->).
    exists (call :: s1), s2. rewrite H1. cbn [mbind option_bind].
    replace (b + S c1)%nat with (S b + c1)%nat by lia. auto.
Qed.

Lemma bond_body_split nl b m e s :
  (b <= m <= e)%nat -> bond_body nl b e = Some s ->
  exists s1 s2, bond_body nl b m = Some s1 /\ bond_body nl m e = Some s2 /\ s = s1 ++ s2.
Proof.
  unfold bond_body. intros Hm Hs.
  replace (e - b)%nat with ((m - b) + (e - m))%nat in Hs by lia.
  destruct (bond_loop_app _ _ _ _ _ Hs) as (s1 & s2 & H1 & H2 & ->).
  exists s1, s2. replace (b + (m - b))%nat with m in H2 by lia. auto.
Qed.

Lemma bond_call_defined nl bond :
  NeighborList_ok nl -> (bond < getNumBonds nl)%nat -> is_Some (bond_call nl bond).
Proof.
  intros (Hn & Hd & Hw) Hb. unfold bond_call.
  destruct (lookup_lt_is_Some_2 (getNeighbors nl) (2 * bond)) as [i ->]; [lia|].
  destruct (lookup_lt_is_Some_2 (getNeighbors nl) (2 * bond + 1)) as [j ->]; [lia|].
  destruct (lookup_lt_is_Some_2 (getDistances nl) bond) as [d ->]; [lia|].
  destruct (lookup_lt_is_Some_2 (getWeights nl) bond) as [w ->]; [lia|].
  cbn. eauto.
Qed.

Lemma bond_loop_defined nl count : forall b,
  NeighborList_ok nl -> (b + count <= getNumBonds nl)%nat ->
  exists s, bond_loop nl b count = Some s /\ length s = count /\
            forall k, (k < count)%nat -> s !! k = bond_call nl (b + k).
Proof.
  induction count as [|c IH]; intros b Hok Hb.
  - exists []. repeat split. intros k Hk. lia.
  - destruct (bond_call_defined nl b Hok ltac:(lia)) as [call Hcall].
    destruct (IH (S b) Hok ltac:(lia)) as (rest & Hrest & Hlen & Hk).
    exists (call :: rest). cbn [bond_loop]. rewrite Hcall, Hrest. cbn [mbind option_bind].
    split; [reflexivity|]. split; [cbn; lia|].
    intros [|k] Hlt.
    + cbn. rewrite Nat.add_0_r. symmetry. exact Hcall.
    + cbn. rewrite Hk by lia. f_equal. lia.
Qed.

(** C6: on a bond list whose arrays hold what its bond count announces, the
    sequential pass over all bonds makes, for bond [b], the call
    [cf(neighbors[2b], neighbors[2b+1], distances[b], weights[b])]; every
    run of [loop_over_NeighborList_parallel], however the range is split
    and however the pieces interleave, makes exactly these calls, each once
    (it is a permutation of the sequential pass); hence two runs over the
    same bond list make the same multiset of calls.  The bond list is an
    argument that is only read: no operation of the body writes to it. *)
Theorem loop_over_NeighborList_parallel_once_per_bond (nl : NeighborList) :
  NeighborList_ok nl ->
  exists bonds : list cf_call,
    bond_body nl 0 (getNumBonds nl) = Some bonds /\
    length bonds = getNumBonds nl /\
    (forall b, (b < getNumBonds nl)%nat ->
       exists i j d w,
         getNeighbors nl !! (2 * b)%nat = Some i /\
         getNeighbors nl !! (2 * b + 1)%nat = Some j /\
         getDistances nl !! b = Some d /\
         getWeights nl !! b = Some w /\
         bonds !! b = Some (mkcf_call i j d (weight_float w))) /\
    loop_over_NeighborList_parallel nl bonds /\
    (forall t, loop_over_NeighborList_parallel nl t -> Permutation t bonds) /\
    (forall t1 t2,
       loop_over_NeighborList_parallel nl t1 ->
       loop_over_NeighborList_parallel nl t2 -> Permutation t1 t2).
Proof.
  intros Hok.
  destruct (bond_loop_defined nl (getNumBonds nl) 0 Hok ltac:(lia))
    as (bonds & Hrun & Hlen & Hk).
  assert (Hbody : bond_body nl 0 (getNumBonds nl) = Some bonds)
    by (unfold bond_body; rewrite Nat.sub_0_r; exact Hrun).
  assert (Hperm : forall t, loop_over_NeighborList_parallel nl t -> Permutation t bonds).
  { intros t Ht. eapply (parallel_for_Permutation (bond_body nl)); [|exact Ht|exact Hbody].
    intros b m e s. apply bond_body_split. }
  exists bonds. split; [exact Hbody|]. split; [exact Hlen|]. split; [|split; [|split]].
  - intros b Hb. specialize (Hk b Hb). cbn [Nat.add] in Hk.
    pose proof Hok as (Hn & Hd & Hw).
    destruct (lookup_lt_is_Some_2 (getNeighbors nl) (2 * b)) as [i Hi]; [lia|].
    destruct (lookup_lt_is_Some_2 (getNeighbors nl) (2 * b + 1)) as [j Hj]; [lia|].
    destruct (lookup_lt_is_Some_2 (getDistances nl) b) as [d Hdd]; [lia|].
    destruct (lookup_lt_is_Some_2 (getWeights nl) b) as [w Hww]; [lia|].
    exists i, j, d, w. repeat (split; [assumption|]).
    rewrite Hk. unfold bond_call. rewrite Hi, Hj, Hdd, Hww. reflexivity.
  - apply parallel_leaf; [lia|exact Hbody].
  - exact Hperm.
  - intros t1 t2 H1 H2. rewrite (Hperm _ H1), (Hperm _ H2). reflexivity.
Qed.

Lemma example_nlist_ok : NeighborList_ok example_nlist.
Proof. repeat split. Qed.

Lemma loop_over_NeighborList_parallel_once_per_bond_witness :
  NeighborList_ok example_nlist /\
  exists bonds : list cf_call,
    bond_body example_nlist 0 1 = Some bonds /\
    bonds !! 0%nat = Some (mkcf_call 1 0 float_one (weight_float float_one)).
Proof.
  split; [exact example_nlist_ok|].
  destruct (loop_over_NeighborList_parallel_once_per_bond example_nlist example_nlist_ok)
    as (bonds & Hbody & _ & Hb & _).
  exists bonds. split; [exact Hbody|].
  destruct (Hb 0%nat ltac:(cbn; lia)) as (i & j & d & w & Hi & Hj & Hd & Hw & Hc).
  cbn in Hi, Hj, Hd, Hw. injection Hi as <-. injection Hj as <-.
  injection Hd as <-. injection Hw as <-. exact Hc.
Defined.

(** ** The live-query loop *)

Lemma drain_ok Q qargs i fuel : forall it np,
  Forall (live_call_ok qargs) (drain Q qargs i fuel it np).
Proof.
  induction fuel as [|f IH]; intros it np; cbn [drain]; [constructor|].
  destruct (iter_end Q it); [constructor|].
  destruct (iter_next Q it) as [it' np'].
  apply Forall_app. split; [|apply IH].
  destruct (exclude_ii qargs) eqn:Ex; cbn [negb orb].
  - destruct (Z.eqb_spec (Z.of_nat i) (ref_id np)) as [He|Hne]; cbn [negb];
      constructor; [|constructor].
    split; [|reflexivity]. cbn [call_i call_j]. intros _ E. apply Hne. symmetry. exact E.
  - constructor; [|constructor]. split; [|reflexivity]. rewrite Ex. discriminate.
Qed.

Lemma query_loop_ok Q qargs fuel count : forall i,
  Forall (live_call_ok qargs) (query_loop Q qargs fuel i count).
Proof.
  induction count as [|c IH]; intros i; cbn [query_loop]; [constructor|].
  destruct (iter_next Q (iter_query Q i)) as [it np].
  apply Forall_app. split; [apply drain_ok | apply IH].
Qed.

(** C7: in live-query mode (null bond list), whatever the iterator
    implementation returns and however the query points are split across
    workers, every invocation the driver makes passes weight 1, and when
    the exclude-self flag is set its reference point id differs from the
    query point index. *)
Theorem loop_over_NeighborList_live_filters_self
    (ref_points : NeighborQuery) (Np : nat) (qargs : QueryArgs) (fuel : nat)
    (t : list cf_call) :
  loop_over_NeighborList ref_points Np qargs None fuel t ->
  Forall (fun c => (exclude_ii qargs = true -> call_i c <> call_j c) /\
                   call_weight c = weight_int 1) t.
Proof.
  unfold loop_over_NeighborList, for_loop_wrapper. intros Ht.
  eapply (parallel_for_Forall _ (live_call_ok qargs)); [|exact Ht].
  intros b e s Hs. unfold query_body in Hs. injection Hs as <-.
  apply query_loop_ok.
Qed.

Lemma loop_over_NeighborList_live_filters_self_witness :
  loop_over_NeighborList example_query 2 (mkQueryArgs true) None 5
    [mkcf_call 1 0 float_one (weight_int 1); mkcf_call 0 1 float_one (weight_int 1)] /\
  Forall (fun c => call_i c <> call_j c /\ call_weight c = weight_int 1)
    [mkcf_call 1 0 float_one (weight_int 1); mkcf_call 0 1 float_one (weight_int 1)].
Proof.
  assert (Hrun : loop_over_NeighborList example_query 2 (mkQueryArgs true) None 5
    [mkcf_call 1 0 float_one (weight_int 1); mkcf_call 0 1 float_one (weight_int 1)]).
  { apply parallel_leaf; [lia|reflexivity]. }
  split; [exact Hrun|].
  pose proof (loop_over_NeighborList_live_filters_self _ _ _ _ _ Hrun) as H.
  eapply Forall_impl; [exact H|]. intros c [Hc Hw]. split; [apply Hc; reflexivity|exact Hw].
Defined.
(** ** Per-worker scratch arrays *)

Section ScratchArrayFacts.

Context {T : Type} (zero : T).

Local Abbreviation heap := (gmap loc (list T)).

Lemma makeNewEmptyArray_fresh size (h : heap) :
  h !! fst (makeNewEmptyArray zero size h) = None /\
  snd (makeNewEmptyArray zero size h) !! fst (makeNewEmptyArray zero size h)
    = Some (replicate (Z.to_nat size) zero).
Proof.
  unfold makeNewEmptyArray. cbn [fst snd]. split.
  - apply not_elem_of_dom. apply is_fresh.
  - apply lookup_insert_eq.
Qed.

(** The first access of a worker to a wrapper whose initialiser allocates. *)
Lemma local_first_access tid (w : ETSArrayWrapper) (h : heap) :
  ets_init (array w) = finit_new_array ->
  ets_elements (array w) !! tid = None ->
  exists l,
    local zero tid w h =
      (Some l,
       mkETSArrayWrapper
         (mkets finit_new_array (<[tid := Some l]> (ets_elements (array w)))) (m_size w),
       <[l := replicate (Z.to_nat (m_size w)) zero]> h) /\
    h !! l = None.
Proof.
  intros Hinit Hnone. unfold local. rewrite Hnone, Hinit.
  exists (fresh (dom h)). split; [reflexivity|].
  apply not_elem_of_dom. apply is_fresh.
Qed.

Lemma local_keeps tid (w : ETSArrayWrapper) (h : heap) :
  ets_init (array (snd (fst (local zero tid w h)))) = ets_init (array w) /\
  m_size (snd (fst (local zero tid w h))) = m_size w.
Proof.
  unfold local. destruct (ets_elements (array w) !! tid) as [p|]; [split; reflexivity|].
  destruct (ets_init (array w)); split; reflexivity.
Qed.

Lemma run_op_keeps op (st st' : ETSArrayWrapper * heap) :
  run_op zero op st = Some st' ->
  ets_init (array (fst st')) = ets_init (array (fst st)) /\
  m_size (fst st') = m_size (fst st).
Proof.
  destruct op as [tid|tid i v]; unfold run_op;
    pose proof (local_keeps tid (fst st) (snd st)) as Hk;
    destruct (local zero tid (fst st) (snd st)) as [[p w] h]; cbn [fst snd] in Hk.
  - intros H. injection H as <-. exact Hk.
  - destruct p as [l|]; cbn [mbind option_bind]; [|discriminate].
    destruct (h !! l) as [a|]; cbn [mbind option_bind]; [|discriminate].
    destruct (decide (i < length a)%nat); [|discriminate].
    intros H. injection H as <-. exact Hk.
Qed.

Lemma run_ops_keeps ops : forall (st st' : ETSArrayWrapper * heap),
  run_ops zero ops st = Some st' ->
  ets_init (array (fst st')) = ets_init (array (fst st)) /\
  m_size (fst st') = m_size (fst st).
Proof.
  induction ops as [|op ops IH]; intros st st' H; cbn [run_ops] in H.
  - injection H as <-. split; reflexivity.
  - destruct (run_op zero op st) as [st1|] eqn:E; cbn [mbind option_bind] in H;
      [|discriminate].
    destruct (run_op_keeps _ _ _ E) as [H1 H2].
    destruct (IH _ _ H) as [H3 H4]. split; congruence.
Qed.

Lemma foldr_delete_array_gone (ps : list (option loc)) (h : heap) l :
  Some l ∈ ps -> foldr delete_array h ps !! l = None.
Proof.
  induction ps as [|p ps IH]; intros Hin; [inversion Hin|].
  cbn [foldr]. destruct p as [l'|]; cbn [delete_array].
  - destruct (decide (l' = l)) as [->|Hne].
    + apply lookup_delete_eq.
    + rewrite lookup_delete_ne by exact Hne. apply IH.
      apply elem_of_cons in Hin. destruct Hin as [E|Hin]; [congruence|exact Hin].
  - apply IH. apply elem_of_cons in Hin. destruct Hin as [E|Hin]; [discriminate|exact Hin].
Qed.

Lemma foldr_delete_array_other (ps : list (option loc)) (h : heap) l :
  Some l ∉ ps -> foldr delete_array h ps !! l = h !! l.
Proof.
  induction ps as [|p ps IH]; intros Hin; [reflexivity|].
  apply not_elem_of_cons in Hin. destruct Hin as [Hne Hin].
  cbn [foldr]. destruct p as [l'|]; cbn [delete_array].
  - rewrite lookup_delete_ne by congruence. apply IH, Hin.
  - apply IH, Hin.
Qed.

Lemma deleteArray_gone (w : ETSArrayWrapper) (h : heap) tid l :
  ets_elements (array w) !! tid = Some (Some l) -> deleteArray w h !! l = None.
Proof.
  intros Hl. unfold deleteArray. apply foldr_delete_array_gone.
  apply list_elem_of_fmap. exists (tid, Some l). split; [reflexivity|].
  apply elem_of_map_to_list. exact Hl.
Qed.

Lemma deleteArray_other (w : ETSArrayWrapper) (h : heap) l :
  (forall tid, ets_elements (array w) !! tid <> Some (Some l)) ->
  deleteArray w h !! l = h !! l.
Proof.
  intros Hl. unfold deleteArray. apply foldr_delete_array_other.
  intros Hin. apply list_elem_of_fmap in Hin. destruct Hin as ([tid p] & Hp & Hin).
  cbn in Hp. subst p. apply elem_of_map_to_list in Hin. exact (Hl tid Hin).
Qed.

Lemma buffer_read_zero l (h : heap) n i :
  h !! l = Some (replicate n zero) -> (i < n)%nat ->
  buffer_read (Some l) i h = Some zero.
Proof.
  intros Hl Hi. unfold buffer_read. cbn [mbind option_bind]. rewrite Hl.
  cbn [mbind option_bind]. apply lookup_replicate_2. exact Hi.
Qed.

(** C9: for a wrapper constructed with [size], or on which [update(size)]
    has just been called, and after any later fetches and stores of the
    workers, the first access of a worker yields a pointer to a newly
    allocated array of exactly [size] elements, all zero; [update] forgets
    every element of the wrapper and frees every array the workers held. *)
Theorem ETSArrayWrapper_first_access_zeroed
    (size : Z) (w0 : ETSArrayWrapper) (h0 : gmap loc (list T)) :
  0 <= size <= UINT_MAX ->
  (forall st,
     st = (ETSArrayWrapper_sized size, h0) \/ st = update size w0 h0 ->
     forall ops st' tid,
       run_ops zero ops st = Some st' ->
       ets_elements (array (fst st')) !! tid = None ->
       exists l a,
         fst (fst (local zero tid (fst st') (snd st'))) = Some l /\
         snd st' !! l = None /\
         snd (local zero tid (fst st') (snd st')) !! l = Some a /\
         Z.of_nat (length a) = size /\
         Forall (fun v => v = zero) a /\
         (forall i, (Z.of_nat i < size) ->
            buffer_read (Some l) i (snd (local zero tid (fst st') (snd st'))) = Some zero)) /\
  ets_elements (array (fst (update size w0 h0))) = ∅ /\
  (forall tid l,
     ets_elements (array w0) !! tid = Some (Some l) ->
     snd (update size w0 h0) !! l = None).
Proof.
  intros Hsize. split; [|split].
  - intros st Hst ops st' tid Hrun Hnone.
    assert (Hinit : ets_init (array (fst st)) = finit_new_array /\ m_size (fst st) = size)
      by (destruct Hst as [->| ->]; split; reflexivity).
    destruct (run_ops_keeps _ _ _ Hrun) as [H1 H2].
    destruct Hinit as [Hi Hs]. rewrite Hi in H1. rewrite Hs in H2.
    destruct (local_first_access tid (fst st') (snd st') H1 Hnone) as (l & Hloc & Hfresh).
    exists l, (replicate (Z.to_nat size) zero). rewrite Hloc, H2. cbn [fst snd].
    split; [reflexivity|]. split; [exact Hfresh|].
    split; [apply lookup_insert_eq|]. split; [rewrite length_replicate; lia|].
    split.
    + apply Forall_forall. intros v Hv. apply elem_of_replicate in Hv. tauto.
    + intros i Hi'. apply (buffer_read_zero l _ (Z.to_nat size)); [|lia].
      apply lookup_insert_eq.
  - reflexivity.
  - intros tid l Hl. unfold update. cbn [snd]. eapply deleteArray_gone. exact Hl.
Qed.

(** C10: a default-constructed wrapper, whatever fetches the workers have
    made, hands every worker the null pointer and allocates nothing; a read
    through that pointer is undefined, and so is any store; only after
    [update(size)] does a first access allocate a zeroed array. *)
Theorem ETSArrayWrapper_default_hands_out_nullptr
    (h0 : gmap loc (list T)) (ops : list (worker_op (T := T)))
    (st' : ETSArrayWrapper * gmap loc (list T)) (tid : nat) :
  run_ops zero ops (ETSArrayWrapper_default, h0) = Some st' ->
  fst (fst (local zero tid (fst st') (snd st'))) = None /\
  snd (local zero tid (fst st') (snd st')) = h0 /\
  (forall i (h : gmap loc (list T)), buffer_read None i h = None) /\
  (forall i v, run_op zero (op_store tid i v) st' = None) /\
  (forall size, 0 < size <= UINT_MAX ->
     exists l,
       fst (fst (local zero tid (fst (update size (fst st') (snd st')))
                                (snd (update size (fst st') (snd st'))))) = Some l /\
       snd (local zero tid (fst (update size (fst st') (snd st')))
                           (snd (update size (fst st') (snd st')))) !! l
         = Some (replicate (Z.to_nat size) zero)).
Proof.
  intros Hrun.
  assert (Hinv : ets_init (array (fst st')) = finit_nullptr /\
                 (forall t p, ets_elements (array (fst st')) !! t = Some p -> p = None) /\
                 snd st' = h0).
  { revert Hrun.
    assert (Hgen : forall st : ETSArrayWrapper * heap,
      ets_init (array (fst st)) = finit_nullptr /\
      (forall t p, ets_elements (array (fst st)) !! t = Some p -> p = None) /\
      snd st = h0 ->
      run_ops zero ops st = Some st' ->
      ets_init (array (fst st')) = finit_nullptr /\
      (forall t p, ets_elements (array (fst st')) !! t = Some p -> p = None) /\
      snd st' = h0).
    { induction ops as [|op ops IH]; intros st Hst H; cbn [run_ops] in H.
      - injection H as <-. exact Hst.
      - destruct (run_op zero op st) as [st1|] eqn:E; cbn [mbind option_bind] in H;
          [|discriminate].
        apply (IH st1); [|exact H].
        destruct Hst as (Hi & Hel & Hh). destruct st as [w h]. cbn [fst snd] in *.
        destruct op as [t|t i v]; unfold run_op, local in E; cbn [fst snd] in E.
        + destruct (ets_elements (array w) !! t) as [p|] eqn:Et.
          * injection E as <-. cbn [fst snd]. auto.
          * rewrite Hi in E. injection E as <-. cbn [fst snd array ets_init ets_elements].
            split; [reflexivity|]. split; [|exact Hh].
            intros t' p Hp. destruct (decide (t = t')) as [->|Hne].
            -- rewrite lookup_insert_eq in Hp. congruence.
            -- rewrite lookup_insert_ne in Hp by exact Hne. eapply Hel, Hp.
        + destruct (ets_elements (array w) !! t) as [p|] eqn:Et.
          * rewrite (Hel _ _ Et) in E. cbn [mbind option_bind] in E. discriminate.
          * rewrite Hi in E. cbn [mbind option_bind] in E. discriminate. }
    apply Hgen. cbn. split; [reflexivity|]. split; [|reflexivity].
    intros t p Hp. rewrite lookup_empty in Hp. discriminate. }
  destruct Hinv as (Hi & Hel & Hh). destruct st' as [w h]. cbn [fst snd] in *.
  assert (Hloc : fst (fst (local zero tid w h)) = None /\ snd (local zero tid w h) = h0).
  { unfold local. destruct (ets_elements (array w) !! tid) as [p|] eqn:Et.
    - cbn [fst snd]. split; [eapply Hel, Et|exact Hh].
    - rewrite Hi. cbn [fst snd]. split; [reflexivity|exact Hh]. }
  split; [apply Hloc|]. split; [apply Hloc|]. split; [reflexivity|]. split.
  - intros i v. unfold run_op. cbn [fst snd].
    destruct (local zero tid w h) as [[p w'] h'] eqn:E. cbn [fst snd] in Hloc.
    destruct Hloc as [-> _]. reflexivity.
  - intros size Hsize.
    destruct (local_first_access tid (fst (update size w h)) (snd (update size w h)))
      as (l & Hl & _); [reflexivity|apply lookup_empty|].
    exists l. rewrite Hl. cbn [fst snd]. split; [reflexivity|]. apply lookup_insert_eq.
Qed.

End ScratchArrayFacts.

Lemma ETSArrayWrapper_first_access_zeroed_witness :
  0 <= 3 <= UINT_MAX /\
  exists l a,
    fst (fst (local 0 7%nat (ETSArrayWrapper_sized 3) (∅ : gmap loc (list Z)))) = Some l /\
    snd (local 0 7%nat (ETSArrayWrapper_sized 3) (∅ : gmap loc (list Z))) !! l = Some a /\
    Z.of_nat (length a) = 3 /\
    Forall (fun v => v = 0) a.
Proof.
  assert (Hs : 0 <= 3 <= UINT_MAX) by (unfold UINT_MAX; lia).
  split; [exact Hs|].
  destruct (proj1 (ETSArrayWrapper_first_access_zeroed 0 3 ETSArrayWrapper_default ∅ Hs)
              (ETSArrayWrapper_sized 3, ∅) (or_introl eq_refl) [] _ 7%nat eq_refl eq_refl)
    as (l & a & H1 & _ & H2 & H3 & H4 & _).
  exists l, a. auto.
Defined.

Lemma ETSArrayWrapper_default_hands_out_nullptr_witness :
  run_ops 0 [op_local 1%nat] (ETSArrayWrapper_default, (∅ : gmap loc (list Z)))
    = Some (mkETSArrayWrapper (mkets finit_nullptr {[ 1%nat := None ]}) 0, ∅) /\
  fst (fst (local 0 2%nat (mkETSArrayWrapper (mkets finit_nullptr {[ 1%nat := None ]}) 0)
              (∅ : gmap loc (list Z)))) = None.
Proof.
  assert (Hrun : run_ops 0 [op_local 1%nat] (ETSArrayWrapper_default, (∅ : gmap loc (list Z)))
    = Some (mkETSArrayWrapper (mkets finit_nullptr {[ 1%nat := None ]}) 0, ∅))
    by reflexivity.
  split; [exact Hrun|].
  exact (proj1 (ETSArrayWrapper_default_hands_out_nullptr 0 ∅ _ _ 2%nat Hrun)).
Defined.

(** * Further properties *)

(** ** Walking several shells *)

Lemma iterate_add {A : Type} (f : A -> A) (n m : nat) (a : A) :
  iterate f (n + m) a = iterate f m (iterate f n a).
Proof.
  revert a. induction n as [|n IH]; intros a; [reflexivity|].
  cbn [Nat.add iterate]. apply IH.
Qed.

(** One shell, from its first state: where the walk ends, which range the
    states on the way carry, and what is emitted. *)
Lemma shell_walk_summary N d2 :
  0 <= N < 1073741824 ->
  let T := Z.to_nat (shell_size N d2) in
  let l := (fun i => operator_deref (advance i (IteratorCellShell_new N d2))) <$> seq 0 T in
  Z.of_nat T = shell_size N d2 /\
  advance T (IteratorCellShell_new N d2) = IteratorCellShell_new (N + 1) d2 /\
  (forall i, (i < T)%nat -> m_range (advance i (IteratorCellShell_new N d2)) = N) /\
  NoDup l /\
  (forall p, p ∈ l <-> chebyshev p = N /\ (d2 = true -> vz p = 0)).
Proof.
  intros HN. destruct (Z.eq_dec N 0) as [->|HN0].
  - cbn zeta. destruct d2.
    + split; [reflexivity|]. split; [reflexivity|]. split.
      * intros i Hi. assert (i = 0%nat) as -> by (cbn in Hi; lia). reflexivity.
      * split; [apply NoDup_singleton|].
        intros [x y z]. unfold chebyshev. cbn [vx vy vz]. split.
        -- intros H. apply list_elem_of_singleton in H. inversion H; subst.
           split; [reflexivity|auto].
        -- intros [H Hz]. apply list_elem_of_singleton.
           change (mkvec3 x y z = mkvec3 0 0 0). f_equal; lia.
    + split; [reflexivity|]. split; [reflexivity|]. split.
      * intros i Hi. assert (i = 0%nat) as -> by (cbn in Hi; lia). reflexivity.
      * split; [apply NoDup_singleton|].
        intros [x y z]. unfold chebyshev. cbn [vx vy vz]. split.
        -- intros H. apply list_elem_of_singleton in H. inversion H; subst.
           split; [reflexivity|auto].
        -- intros [H Hz]. apply list_elem_of_singleton.
           change (mkvec3 x y z = mkvec3 0 0 0). f_equal; lia.
  - assert (HN1 : 1 <= N < 1073741824) by lia. assert (H1 : 1 <= N) by lia.
    intros T l. subst l. rewrite (shell_new_first N d2 HN1).
    destruct (shell_walk N d2 HN1) as (Hrun & Hvisit & Hall). fold T in Hrun, Hvisit, Hall.
    pose proof (shell_rank_last N d2 H1) as HT.
    pose proof (shell_rank_bound N d2 _ H1 (shell_inv_first N d2 H1)) as HB0.
    assert (HTn : T = S (Z.to_nat (shell_rank (shell_last N d2)))) by (unfold T; lia).
    split; [unfold T; lia|]. split; [|split; [|split]].
    + destruct (Hall _ (shell_inv_last N d2 H1)) as (i & Hi & Hs).
      destruct (Hvisit i Hi) as [_ Hr]. rewrite Hs in Hr.
      assert (i = Z.to_nat (shell_rank (shell_last N d2))) as -> by lia.
      rewrite HTn. unfold advance in *. rewrite iterate_succ, Hs.
      apply shell_incr_last, HN1.
    + intros i Hi. destruct (Hvisit i Hi) as [(Hr & _) _]. exact Hr.
    + apply NoDup_fmap_2_strong; [|apply NoDup_seq].
      intros i j Hi Hj Heq. apply elem_of_seq in Hi, Hj.
      destruct (Hvisit i) as [HIi HRi]; [lia|]. destruct (Hvisit j) as [HIj HRj]; [lia|].
      apply (shell_inv_state_of N d2 _ H1) in HIi, HIj.
      rewrite Heq in HIi. rewrite <- HIj in HIi. rewrite HIi in HRi. lia.
    + intros p. rewrite list_elem_of_fmap. split.
      * intros (i & -> & Hi). apply elem_of_seq in Hi.
        destruct (Hvisit i) as [HIi _]; [lia|].
        apply (shell_inv_sound N d2 _ H1 HIi).
      * intros [Hc Hz].
        destruct (shell_inv_complete N d2 p H1 Hc Hz) as [HI Hd].
        destruct (Hall _ HI) as (i & Hi & Hs).
        exists i. split; [rewrite Hs; symmetry; exact Hd|].
        apply elem_of_seq. lia.
Qed.

Lemma m_range_new N d2 :
  -2147483648 <= N < 2147483648 -> m_range (IteratorCellShell_new N d2) = N.
Proof.
  intros HN. unfold IteratorCellShell_new, reset. destruct (N =? 0); shell_fields;
    apply to_int_small; lia.
Qed.

Lemma cube_size_succ R d2 :
  0 <= R -> cube_size (R + 1) d2 = cube_size R d2 + shell_size R d2.
Proof.
  intros HR. unfold cube_size, shell_size.
  destruct (Z.eqb_spec (R + 1) 0); [lia|].
  destruct (Z.eqb_spec R 0) as [->|]; [destruct d2; reflexivity|].
  destruct d2; lia.
Qed.

(** All shells below [R], walked in one go from shell 0. *)
Lemma cube_walk (k : nat) (d2 : bool) :
  Z.of_nat k <= 1073741824 ->
  let R := Z.of_nat k in
  let n := Z.to_nat (cube_size R d2) in
  let l := (fun i => operator_deref (advance i (IteratorCellShell_new 0 d2))) <$> seq 0 n in
  Z.of_nat n = cube_size R d2 /\
  advance n (IteratorCellShell_new 0 d2) = IteratorCellShell_new R d2 /\
  (forall i, (i < n)%nat -> 0 <= m_range (advance i (IteratorCellShell_new 0 d2)) < R) /\
  NoDup l /\
  (forall p, p ∈ l <-> chebyshev p < R /\ (d2 = true -> vz p = 0)).
Proof.
  induction k as [|k IH]; intros Hk.
  - cbn zeta. change (Z.of_nat 0) with 0. change (Z.to_nat (cube_size 0 d2)) with 0%nat.
    split; [reflexivity|]. split; [reflexivity|]. split; [intros i Hi; lia|].
    split; [constructor|]. intros p. split.
    + intros H. inversion H.
    + intros [H _]. unfold chebyshev in H. lia.
  - specialize (IH ltac:(lia)). cbn zeta in IH |- *.
    set (R := Z.of_nat k) in *.
    replace (Z.of_nat (S k)) with (R + 1) by (unfold R; lia).
    destruct IH as (Hn & Hend & Hrange & Hnd & Hin).
    assert (HR : 0 <= R < 1073741824) by (unfold R; lia).
    pose proof (shell_walk_summary R d2 HR) as HS. cbn zeta in HS.
    destruct HS as (HT & HSend & HSrange & HSnd & HSin).
    set (n := Z.to_nat (cube_size R d2)) in *.
    set (T := Z.to_nat (shell_size R d2)) in *.
    assert (Hn' : Z.to_nat (cube_size (R + 1) d2) = (n + T)%nat)
      by (rewrite cube_size_succ by lia; lia).
    rewrite Hn'.
    assert (Hshift : forall i, advance (n + i) (IteratorCellShell_new 0 d2)
                               = advance i (IteratorCellShell_new R d2)).
    { intros i. unfold advance in *. rewrite iterate_add, Hend. reflexivity. }
    assert (Hl : (fun i => operator_deref (advance i (IteratorCellShell_new 0 d2)))
                   <$> seq 0 (n + T)
                 = ((fun i => operator_deref (advance i (IteratorCellShell_new 0 d2)))
                      <$> seq 0 n)
                   ++ ((fun i => operator_deref (advance i (IteratorCellShell_new R d2)))
                         <$> seq 0 T)).
    { rewrite seq_app, fmap_app. f_equal. cbn [Nat.add].
      replace (seq n T) with (Nat.add n <$> seq 0 T)
        by (rewrite fmap_add_seq; f_equal; lia).
      rewrite <- list_fmap_compose.
      apply list_fmap_ext. intros _ i _. cbn. rewrite Hshift. reflexivity. }
    rewrite Hl.
    split; [rewrite cube_size_succ by lia; lia|]. split; [|split; [|split]].
    + replace (n + T)%nat with (n + T)%nat by reflexivity.
      rewrite Hshift. exact HSend.
    + intros i Hi. destruct (le_lt_dec n i) as [Hge|Hlt].
      * replace i with (n + (i - n))%nat by lia. rewrite Hshift.
        rewrite HSrange by lia. lia.
      * specialize (Hrange i Hlt). lia.
    + apply NoDup_app. split; [exact Hnd|]. split; [|exact HSnd].
      intros p Hp Hp'. apply Hin in Hp. apply HSin in Hp'. lia.
    + intros p. rewrite elem_of_app, Hin, HSin. split.
      * intros [[H1 H2]|[H1 H2]]; split; (lia || assumption).
      * intros [H1 H2]. destruct (Z.eq_dec (chebyshev p) R) as [E|E]; [right|left];
          split; (lia || assumption).
Qed.

(** X1: the loop of the class comment, from [IteratorCellShell(0, is2D)]
    until the iterator equals [IteratorCellShell(R, is2D)], for
    [0 <= R <= 2^30]: it terminates after [(2R-1)^3] steps ([(2R-1)^2] in 2D,
    none for [R = 0]) and emits exactly the offsets at Chebyshev distance
    below [R] (with [dz = 0] in 2D), each once: shell after shell, the
    iterator passes from the last offset of one shell to the first of the
    next. *)
Theorem cube_offsets_exact (R : Z) (is2D : bool) :
  0 <= R <= 1073741824 ->
  exists l : list vec3,
    (forall fuel, (Z.to_nat (cube_size R is2D) <= fuel)%nat ->
       cube_offsets fuel R is2D = Some l) /\
    Z.of_nat (length l) = cube_size R is2D /\
    NoDup l /\
    (forall p, In p l <-> chebyshev p < R /\ (is2D = true -> vz p = 0)).
Proof.
  intros HR.
  pose proof (cube_walk (Z.to_nat R) is2D ltac:(lia)) as H. cbn zeta in H.
  replace (Z.of_nat (Z.to_nat R)) with R in H by lia.
  destruct H as (Hn & Hend & Hrange & Hnd & Hin).
  set (n := Z.to_nat (cube_size R is2D)) in *.
  exists ((fun i => operator_deref (advance i (IteratorCellShell_new 0 is2D))) <$> seq 0 n).
  split; [|split; [|split]].
  - intros fuel Hfuel. unfold cube_offsets. apply shell_loop_run; [| |exact Hfuel].
    + intros i Hi. apply operator_eq_range_ne.
      rewrite (m_range_new R) by lia. specialize (Hrange i Hi). lia.
    + rewrite Hend. apply operator_eq_refl.
  - rewrite length_fmap, length_seq. exact Hn.
  - exact Hnd.
  - intros p. rewrite <- list_elem_of_In. apply Hin.
Qed.

Lemma cube_offsets_exact_witness :
  0 <= 2 <= 1073741824 /\
  exists l : list vec3,
    cube_offsets 27 2 false = Some l /\ Z.of_nat (length l) = 27 /\
    (forall p, In p l <-> chebyshev p < 2 /\ (false = true -> vz p = 0)).
Proof.
  assert (H2 : 0 <= 2 <= 1073741824) by lia.
  split; [exact H2|].
  destruct (cube_offsets_exact 2 false H2) as (l & Hrun & Hlen & _ & Hin).
  exists l. split; [apply Hrun; cbn; lia|]. split; [exact Hlen|exact Hin].
Defined.

(** ** The order of emission within a shell *)

Lemma shell_rank_by_face N s :
  1 <= N -> shell_inv N false s ->
  let W := 2 * N * (2 * N - 1) in
  let C := (2 * N + 1) * (2 * N + 1) in
  (Z.abs (m_current_z s) < N /\ 0 <= shell_rank s < 4 * W) \/
  (m_current_z s = - N /\ 4 * W <= shell_rank s < 4 * W + C) \/
  (m_current_z s = N /\ 4 * W + C <= shell_rank s).
Proof.
  intros HN. destruct s as [r st x y z d]. unfold shell_inv, shell_rank. shell_fields.
  intros (-> & -> & H). cbn zeta.
  destruct H as [H|[H|[H|[H|[H|H]]]]]; destruct H as (-> & H1 & H2 & H3).
  - left. split; [lia|nia].
  - left. split; [lia|nia].
  - left. split; [lia|nia].
  - left. split; [lia|nia].
  - right; left. split; [lia|nia].
  - right; right. split; [lia|nia].
Qed.

(** X2: for [1 <= N < 2^30] the walk over shell [N] emits every offset [p]
    of the shell at position [shell_position N is2D p]: wedge by wedge (+y,
    +x, -y, -x), then in 3D the cap [z = -N] before the cap [z = +N]; the
    first offset is [(-N, N, 0)] in 2D and [(-N, N, -N+1)] in 3D. *)
Theorem shell_offsets_order (N : Z) (is2D : bool) :
  1 <= N < 1073741824 ->
  exists l : list vec3,
    shell_offsets (Z.to_nat (shell_size N is2D)) N is2D = Some l /\
    (forall p, chebyshev p = N -> (is2D = true -> vz p = 0) ->
       0 <= shell_position N is2D p < shell_size N is2D /\
       l !! Z.to_nat (shell_position N is2D p) = Some p) /\
    l !! 0%nat = Some (mkvec3 (- N) N (if is2D then 0 else - N + 1)) /\
    (forall p q i j, l !! i = Some p -> l !! j = Some q ->
       Z.abs (vz p) < N -> Z.abs (vz q) = N -> (i < j)%nat) /\
    (forall p q i j, l !! i = Some p -> l !! j = Some q ->
       vz p = - N -> vz q = N -> (i < j)%nat).
Proof.
  intros HN. assert (H1 : 1 <= N) by lia.
  destruct (shell_walk N is2D HN) as (Hrun & Hvisit & Hall).
  set (T := Z.to_nat (shell_size N is2D)) in *.
  pose proof (shell_rank_last N is2D H1) as HT.
  pose proof (shell_rank_bound N is2D _ H1 (shell_inv_first N is2D H1)) as HB0.
  assert (Hlook : forall i, (i < T)%nat ->
            ((fun i => operator_deref (advance i (shell_first N is2D))) <$> seq 0 T) !! i
            = Some (operator_deref (advance i (shell_first N is2D)))).
  { intros i Hi. rewrite list_lookup_fmap, lookup_seq_lt by exact Hi. reflexivity. }
  assert (Hpos : forall p i,
            ((fun i => operator_deref (advance i (shell_first N is2D))) <$> seq 0 T) !! i
              = Some p ->
            (i < T)%nat /\ shell_inv N is2D (advance i (shell_first N is2D)) /\
            shell_rank (advance i (shell_first N is2D)) = Z.of_nat i /\
            p = operator_deref (advance i (shell_first N is2D))).
  { intros p i Hi. assert (Hlt : (i < T)%nat).
    { apply lookup_lt_Some in Hi. rewrite length_fmap, length_seq in Hi. exact Hi. }
    rewrite (Hlook i Hlt) in Hi. injection Hi as <-.
    destruct (Hvisit i Hlt) as [HI HR]. auto. }
  exists ((fun i => operator_deref (advance i (shell_first N is2D))) <$> seq 0 T).
  split; [apply Hrun; lia|]. split; [|split; [|split]].
  - intros p Hc Hz. unfold shell_position.
    destruct (shell_inv_complete N is2D p H1 Hc Hz) as [HI Hd].
    destruct (Hall _ HI) as (i & Hi & Hs).
    destruct (Hvisit i Hi) as [_ Hr]. rewrite Hs in Hr. rewrite Hr.
    split; [unfold T in Hi; lia|].
    rewrite Nat2Z.id, (Hlook i Hi), Hs, Hd. reflexivity.
  - rewrite (Hlook 0%nat) by (unfold T; lia). reflexivity.
  - intros p q i j Hp Hq Hzp Hzq.
    destruct (Hpos _ _ Hp) as (_ & HIp & HRp & ->).
    destruct (Hpos _ _ Hq) as (_ & HIq & HRq & ->).
    unfold operator_deref in Hzp, Hzq. cbn [vz] in Hzp, Hzq.
    destruct is2D.
    + destruct HIq as (_ & _ & Hz0 & _). lia.
    + pose proof (shell_rank_by_face N _ H1 HIp) as Fp.
      pose proof (shell_rank_by_face N _ H1 HIq) as Fq.
      cbn zeta in Fp, Fq. rewrite HRp in Fp. rewrite HRq in Fq.
      assert (0 < (2 * N + 1) * (2 * N + 1)) by nia.
      lia.
  - intros p q i j Hp Hq Hzp Hzq.
    destruct (Hpos _ _ Hp) as (_ & HIp & HRp & ->).
    destruct (Hpos _ _ Hq) as (_ & HIq & HRq & ->).
    unfold operator_deref in Hzp, Hzq. cbn [vz] in Hzp, Hzq.
    destruct is2D.
    + destruct HIq as (_ & _ & Hz0 & _). lia.
    + pose proof (shell_rank_by_face N _ H1 HIp) as Fp.
      pose proof (shell_rank_by_face N _ H1 HIq) as Fq.
      cbn zeta in Fp, Fq. rewrite HRp in Fp. rewrite HRq in Fq.
      assert (0 < (2 * N + 1) * (2 * N + 1)) by nia.
      lia.
Qed.

Lemma shell_offsets_order_witness :
  1 <= 1 < 1073741824 /\
  exists l : list vec3,
    shell_offsets 26 1 false = Some l /\
    l !! Z.to_nat (shell_position 1 false (mkvec3 1 1 (-1))) = Some (mkvec3 1 1 (-1)) /\
    shell_position 1 false (mkvec3 1 1 (-1)) = 16.
Proof.
  assert (H1 : 1 <= 1 < 1073741824) by lia.
  split; [exact H1|].
  destruct (shell_offsets_order 1 false H1) as (l & Hrun & Hpos & _).
  exists l. split; [exact Hrun|]. split; [|reflexivity].
  apply Hpos; [reflexivity|discriminate].
Defined.

(** ** Planar iterators *)

Lemma shell_planar_new range : shell_planar (IteratorCellShell_new range true).
Proof.
  unfold shell_planar, IteratorCellShell_new, reset. shell_fields.
  destruct (Z.eqb_spec range 0) as [->|Hr]; shell_fields.
  - split; [reflexivity|]. right. repeat split.
  - split; [reflexivity|]. left. lia.
Qed.

Lemma shell_planar_incr s :
  m_is2D s = true -> shell_planar s -> shell_planar (operator_incr s).
Proof.
  destruct s as [r st x y z d]. unfold shell_planar. shell_fields.
  intros -> (-> & Hst).
  assert (Hcase : st = 0 \/ st = 1 \/ st = 2 \/ st = 3 \/
                  (st = 5 /\ r = 0 /\ x = 0 /\ y = 0)) by lia.
  destruct Hcase as [->|[->|[->|[->|(-> & -> & -> & ->)]]]]; shell_gen.
Qed.

Lemma operator_incr_is2D s : m_is2D (operator_incr s) = m_is2D s.
Proof.
  destruct s as [r st x y z d]. unfold operator_incr, reset. shell_fields.
  repeat match goal with
    | |- context [if ?b then _ else _] => destruct b
    | |- context [let '(_, _) := ?p in _] => destruct p
    end; reflexivity.
Qed.

(** X3: an iterator constructed as 2D, for every [unsigned int] range and
    after any number of [operator++], has [z = 0] and never enters the cap
    stage 4: a 2D iterator never emits an offset outside the plane,
    whatever the range; and [operator++] never changes the dimensionality
    flag. *)
Theorem constructed_2D_stays_planar (it : IteratorCellShell) :
  constructed it ->
  (m_is2D it = true -> vz (operator_deref it) = 0 /\ m_stage it <> 4) /\
  m_is2D (operator_incr it) = m_is2D it.
Proof.
  intros Hc. split; [|apply operator_incr_is2D].
  intros Hd.
  assert (H : m_is2D it = true -> shell_planar it).
  { clear Hd. induction Hc as [range d2 Hr | it Hc IH].
    - intros Hd. assert (d2 = true) as ->.
      { unfold IteratorCellShell_new, reset in Hd. destruct (range =? 0); exact Hd. }
      apply shell_planar_new.
    - intros Hd. rewrite operator_incr_is2D in Hd.
      apply shell_planar_incr; [exact Hd|apply IH, Hd]. }
  destruct (H Hd) as [Hz Hst]. split; [exact Hz|]. lia.
Qed.

Lemma constructed_2D_stays_planar_witness :
  constructed (advance 5 (IteratorCellShell_new 4294967295 true)) /\
  m_is2D (advance 5 (IteratorCellShell_new 4294967295 true)) = true /\
  vz (operator_deref (advance 5 (IteratorCellShell_new 4294967295 true))) = 0.
Proof.
  assert (Hc : constructed (advance 5 (IteratorCellShell_new 4294967295 true))).
  { unfold advance. cbn [iterate]. do 5 apply constructed_incr.
    apply constructed_new. unfold UINT_MAX. lia. }
  split; [exact Hc|]. split; [reflexivity|].
  exact (proj1 (proj1 (constructed_2D_stays_planar _ Hc) eq_refl)).
Defined.

(** ** The loop over one cell's chain *)

Lemma array_read_Some (a : list Z) i v :
  array_read (Some a) i = Some v -> 0 <= i /\ a !! Z.to_nat i = Some v.
Proof.
  unfold array_read. cbn [mbind option_bind].
  destruct (Z.ltb_spec i 0) as [Hneg|Hpos]; [discriminate|]. intros Hv.
  split; [lia|exact Hv].
Qed.

Lemma next_at cl Np Nc cur cell v :
  array_read (Some cl) cur = Some v ->
  next (mkIteratorLinkCell (Some cl) Np Nc cur cell)
  = Some (mkIteratorLinkCell (Some cl) Np Nc v cell, v).
Proof.
  intros H. unfold next. cbn [it_cell_list m_cur_idx m_Np m_Nc m_cell]. rewrite H.
  reflexivity.
Qed.

(** From a point slot [p], with a budget of at least [p] iterations. *)
Lemma cell_loop_from_point cl Np Nc cell :
  cell_list_ok cl Np Nc -> links_decrease cl Np ->
  forall fuel p, 0 <= p < Np -> (Z.to_nat p <= fuel)%nat ->
  exists l, cell_loop fuel (mkIteratorLinkCell (Some cl) Np Nc p cell) = chain_done l /\
            Forall (fun i => 0 <= i < p) l /\
            StronglySorted Z.gt l.
Proof.
  intros Hok Hdec. pose proof Hok as (HNp & HNc & Hsum & Hlen & Hall).
  rewrite Forall_forall in Hall.
  induction fuel as [|f IH]; intros p Hp Hfuel.
  - assert (p = 0) as -> by lia.
    destruct (array_read_in_bounds cl 0 ltac:(lia)) as [v Hv].
    cbn [cell_loop]. rewrite (next_at _ _ _ _ _ _ Hv).
    destruct (array_read_Some _ _ _ Hv) as [_ Hl].
    destruct (Hdec 0 v ltac:(lia) Hl) as [->|Hlt].
    + exists []. repeat split; constructor.
    + pose proof (Hall v ltac:(eapply array_read_elem; exact Hv)) as [->|Hr];
        [exists []; repeat split; constructor|lia].
  - destruct (array_read_in_bounds cl p ltac:(lia)) as [v Hv].
    cbn [cell_loop]. rewrite (next_at _ _ _ _ _ _ Hv).
    destruct (array_read_Some _ _ _ Hv) as [_ Hl].
    pose proof (Hall v ltac:(eapply array_read_elem; exact Hv)) as Hr.
    destruct (Z.eq_dec v LINK_CELL_TERMINATOR) as [->|Hne].
    + exists []. repeat split; constructor.
    + destruct Hr as [Hr|Hr]; [contradiction|].
      destruct (Hdec p v Hp Hl) as [Ht|Hlt]; [contradiction|].
      unfold atEnd. cbn [m_cur_idx].
      destruct (Z.eqb_spec v LINK_CELL_TERMINATOR) as [E|_]; [contradiction|].
      destruct (IH v ltac:(lia) ltac:(lia)) as (l & Hrun & Hb & Hs).
      rewrite Hrun. exists (v :: l). split; [reflexivity|]. split.
      * constructor; [lia|]. eapply Forall_impl; [exact Hb|]. cbn. intros; lia.
      * constructor; [exact Hs|]. eapply Forall_impl; [exact Hb|]. cbn. intros; lia.
Qed.

Lemma cell_loop_never_undefined cl Np Nc cell :
  cell_list_ok cl Np Nc ->
  forall fuel cur, (cur = uadd Np cell /\ 0 <= cell < Nc) \/ 0 <= cur < Np ->
  cell_loop fuel (mkIteratorLinkCell (Some cl) Np Nc cur cell) <> chain_undefined /\
  forall l, cell_loop fuel (mkIteratorLinkCell (Some cl) Np Nc cur cell) = chain_done l ->
            Forall (fun i => 0 <= i < Np) l.
Proof.
  intros Hok. pose proof Hok as (HNp & HNc & Hsum & Hlen & Hall).
  rewrite Forall_forall in Hall.
  induction fuel as [|f IH]; intros cur Hcur.
  - assert (Hb : 0 <= cur < Z.of_nat (length cl)).
    { destruct Hcur as [[-> Hc]|Hc]; [unfold uadd; rewrite to_uint_small by lia|]; lia. }
    destruct (array_read_in_bounds cl cur Hb) as [v Hv].
    cbn [cell_loop]. rewrite (next_at _ _ _ _ _ _ Hv).
    destruct (atEnd _).
    + split; [discriminate|]. intros l0 Hl0. injection Hl0 as <-. constructor.
    + split; [discriminate|]. intros l0 Hl0. discriminate.
  - assert (Hb : 0 <= cur < Z.of_nat (length cl)).
    { destruct Hcur as [[-> Hc]|Hc]; [unfold uadd; rewrite to_uint_small by lia|]; lia. }
    destruct (array_read_in_bounds cl cur Hb) as [v Hv].
    cbn [cell_loop]. rewrite (next_at _ _ _ _ _ _ Hv).
    pose proof (Hall v ltac:(eapply array_read_elem; exact Hv)) as Hr.
    unfold atEnd. cbn [m_cur_idx].
    destruct (Z.eqb_spec v LINK_CELL_TERMINATOR) as [E|Hne].
    + split; [discriminate|]. intros l0 Hl0. injection Hl0 as <-. constructor.
    + destruct Hr as [Hr|Hr]; [contradiction|].
      destruct (IH v (or_intror Hr)) as [Hu Hd].
      destruct (cell_loop f (mkIteratorLinkCell (Some cl) Np Nc v cell)) as [l'| |];
        [|split; [discriminate|intros l0 Hl0; discriminate]|contradiction].
      split; [discriminate|]. intros l0 Hl0. injection Hl0 as <-.
      constructor; [exact Hr|]. apply Hd. reflexivity.
Qed.

Lemma cell_loop_more_fuel f : forall it f' l,
  cell_loop f it = chain_done l -> (f <= f')%nat -> cell_loop f' it = chain_done l.
Proof.
  induction f as [|f IH]; intros it f' l H Hle.
  - destruct f'; cbn [cell_loop] in H |- *;
      destruct (next it) as [[it' i]|]; try discriminate;
      destruct (atEnd it'); try discriminate; exact H.
  - destruct f' as [|f']; [lia|]. cbn [cell_loop] in H |- *.
    destruct (next it) as [[it' i]|]; [|discriminate].
    destruct (atEnd it'); [exact H|].
    destruct (cell_loop f it') as [l'| |] eqn:E; try discriminate.
    rewrite (IH it' f' l' E ltac:(lia)). exact H.
Qed.

Lemma decreasing_below (l : list Z) : forall p,
  0 <= p -> StronglySorted Z.gt l -> Forall (fun i => 0 <= i < p) l ->
  Z.of_nat (length l) <= p /\ NoDup l.
Proof.
  induction l as [|a l IHl]; intros p Hp Hs Hf.
  - split; [cbn; lia|constructor].
  - inversion Hs as [|? ? Hs' Hgt]; subst. inversion Hf as [|? ? Ha Hf']; subst.
    destruct (IHl a ltac:(lia) Hs') as [Hlen' Hnd'].
    { apply Forall_forall. intros i Hi. rewrite Forall_forall in Hgt, Hf'.
      specialize (Hgt i Hi). specialize (Hf' i Hi). lia. }
    split; [cbn [length]; lia|]. constructor; [|exact Hnd'].
    intros Hin. rewrite Forall_forall in Hgt. specialize (Hgt a Hin). lia.
Qed.

(** X4: on a well-formed cell list the documented loop over a cell's chain
    never reads outside the array, whatever its iteration budget, and every
    index it yields is a point index below [Np]; if moreover every link
    points to an earlier point, the loop ends within [Np] iterations and
    yields strictly decreasing indices, hence no point twice. *)
Theorem cell_loop_safe_and_terminating (cell_list : list Z) (Np Nc cell : Z) :
  cell_list_ok cell_list Np Nc -> 0 <= cell < Nc ->
  (forall fuel,
     cell_loop fuel (IteratorLinkCell_new cell_list Np Nc cell) <> chain_undefined /\
     forall l, cell_loop fuel (IteratorLinkCell_new cell_list Np Nc cell) = chain_done l ->
               Forall (fun i => 0 <= i < Np) l) /\
  (links_decrease cell_list Np ->
   exists l,
     (forall fuel, (Z.to_nat Np <= fuel)%nat ->
        cell_loop fuel (IteratorLinkCell_new cell_list Np Nc cell) = chain_done l) /\
     StronglySorted Z.gt l /\ NoDup l /\ Z.of_nat (length l) <= Np).
Proof.
  intros Hok Hcell. pose proof Hok as (HNp & HNc & Hsum & Hlen & Hall).
  rewrite Forall_forall in Hall. split.
  - intros fuel. unfold IteratorLinkCell_new.
    apply (cell_loop_never_undefined _ _ _ _ Hok). left. split; [reflexivity|exact Hcell].
  - intros Hdec. unfold IteratorLinkCell_new.
    assert (Hb : 0 <= uadd Np cell < Z.of_nat (length cell_list))
      by (unfold uadd; rewrite to_uint_small by lia; lia).
    destruct (array_read_in_bounds cell_list _ Hb) as [v Hv].
    pose proof (Hall v ltac:(eapply array_read_elem; exact Hv)) as Hr.
    destruct (Z.eq_dec v LINK_CELL_TERMINATOR) as [->|Hne].
    + exists []. split; [|split; [constructor|split; [constructor|cbn; lia]]].
      intros fuel _. destruct fuel; cbn [cell_loop]; rewrite (next_at _ _ _ _ _ _ Hv);
        reflexivity.
    + destruct Hr as [Hr|Hr]; [contradiction|].
      assert (Hrun : forall fuel, (Z.to_nat Np <= fuel)%nat ->
                exists l, cell_loop fuel (mkIteratorLinkCell (Some cell_list) Np Nc
                                            (uadd Np cell) cell) = chain_done (v :: l) /\
                          Forall (fun i => 0 <= i < v) l /\ StronglySorted Z.gt l).
      { intros fuel Hfuel. destruct fuel as [|f]; [lia|].
        cbn [cell_loop]. rewrite (next_at _ _ _ _ _ _ Hv).
        unfold atEnd. cbn [m_cur_idx].
        destruct (Z.eqb_spec v LINK_CELL_TERMINATOR) as [E|_]; [contradiction|].
        destruct (cell_loop_from_point _ _ _ cell Hok Hdec f v Hr ltac:(lia))
          as (l & Hl & Hb' & Hs).
        rewrite Hl. exists l. auto. }
      destruct (Hrun (Z.to_nat Np) ltac:(lia)) as (l & Hl & Hbl & Hsl).
      exists (v :: l).
      assert (Hs : StronglySorted Z.gt (v :: l)).
      { constructor; [exact Hsl|]. eapply Forall_impl; [exact Hbl|]. cbn. intros; lia. }
      assert (Hf : Forall (fun i => 0 <= i < Np) (v :: l)).
      { constructor; [exact Hr|]. eapply Forall_impl; [exact Hbl|]. cbn. intros; lia. }
      destruct (decreasing_below (v :: l) Np ltac:(lia) Hs Hf) as [Hlen' Hnd].
      split; [|split; [exact Hs|split; [exact Hnd|exact Hlen']]].
      intros fuel Hfuel. eapply cell_loop_more_fuel; [exact Hl|exact Hfuel].
Qed.

Lemma example_links_decrease : links_decrease example_cell_list 2.
Proof.
  intros p v Hp Hv. left.
  assert (p = 0 \/ p = 1) as [-> | ->] by lia; cbn in Hv; injection Hv as <-; reflexivity.
Qed.

Lemma cell_loop_safe_and_terminating_witness :
  cell_list_ok example_cell_list 2 125 /\ 0 <= 62 < 125 /\
  links_decrease example_cell_list 2 /\
  exists l, cell_loop 2 (IteratorLinkCell_new example_cell_list 2 125 62) = chain_done l /\
            NoDup l.
Proof.
  assert (Hc : 0 <= 62 < 125) by lia.
  split; [exact example_cell_list_ok|]. split; [exact Hc|].
  split; [exact example_links_decrease|].
  destruct (proj2 (cell_loop_safe_and_terminating example_cell_list 2 125 62
                     example_cell_list_ok Hc) example_links_decrease)
    as (l & Hrun & _ & Hnd & _).
  exists l. split; [apply Hrun; cbn; lia|exact Hnd].
Defined.

(** ** Restarting a chain *)

Lemma chain_cursor_fields cl Np Nc cell it :
  chain_cursor cl Np Nc cell it ->
  it_cell_list it = Some cl /\ m_Np it = Np /\ m_Nc it = Nc /\ m_cell it = cell.
Proof.
  induction 1 as [it v Hn | it it' v Hc IH Hend Hn].
  - apply next_Some in Hn. destruct Hn as [_ ->]. repeat split.
  - apply next_Some in Hn. destruct Hn as [_ ->]. cbn. exact IH.
Qed.

(** X5: [begin()] restarts the chain: on a well-formed cell list, called on
    a cursor that has advanced any number of times, also one that is at its
    end, it reads inside the array, returns what the first [next()] of a
    newly constructed iterator over the same cell returns and leaves the
    cursor in the same state. *)
Theorem begin_restarts_chain (cell_list : list Z) (Np Nc cell : Z) (it : IteratorLinkCell) :
  cell_list_ok cell_list Np Nc -> 0 <= cell < Nc ->
  chain_cursor cell_list Np Nc cell it ->
  begin it = next (IteratorLinkCell_new cell_list Np Nc cell) /\
  is_Some (begin it).
Proof.
  intros Hok Hcell Hc.
  destruct (chain_cursor_fields _ _ _ _ _ Hc) as (Hl & HNp & HNc & Hcl).
  assert (Hb : begin it = next (IteratorLinkCell_new cell_list Np Nc cell)).
  { unfold begin, IteratorLinkCell_new. rewrite Hl, HNp, HNc, Hcl. reflexivity. }
  split; [exact Hb|]. rewrite Hb.
  pose proof Hok as (HNp' & HNc' & Hsum & Hlen & _).
  unfold next, IteratorLinkCell_new. cbn [it_cell_list m_cur_idx].
  destruct (array_read_in_bounds cell_list (uadd Np cell)) as [v Hv].
  - unfold uadd. rewrite to_uint_small by lia. lia.
  - rewrite Hv. cbn. eauto.
Qed.

Lemma begin_restarts_chain_witness :
  cell_list_ok example_cell_list 2 125 /\ 0 <= 62 < 125 /\
  chain_cursor example_cell_list 2 125 62 example_cursor_at_end /\
  atEnd example_cursor_at_end = true /\
  begin example_cursor_at_end = next (IteratorLinkCell_new example_cell_list 2 125 62).
Proof.
  assert (Hc : 0 <= 62 < 125) by lia.
  split; [exact example_cell_list_ok|]. split; [exact Hc|].
  split; [exact example_cursor_reached|]. split; [reflexivity|].
  exact (proj1 (begin_restarts_chain _ _ _ _ _ example_cell_list_ok Hc
                  example_cursor_reached)).
Defined.

(** ** The live-query loop, run to run *)

Lemma query_loop_app Q qargs fuel c1 c2 : forall i,
  query_loop Q qargs fuel i (c1 + c2)
  = query_loop Q qargs fuel i c1 ++ query_loop Q qargs fuel (i + c1) c2.
Proof.
  induction c1 as [|c1 IH]; intros i.
  - rewrite Nat.add_0_r. reflexivity.
  - cbn [Nat.add query_loop]. destruct (iter_next Q (iter_query Q i)) as [it np].
    rewrite IH, <- app_assoc. replace (i + S c1)%nat with (S i + c1)%nat by lia.
    reflexivity.
Qed.

Lemma query_body_split Q qargs fuel b m e s :
  (b <= m <= e)%nat -> query_body Q qargs fuel b e = Some s ->
  exists s1 s2, query_body Q qargs fuel b m = Some s1 /\
                query_body Q qargs fuel m e = Some s2 /\ s = s1 ++ s2.
Proof.
  unfold query_body. intros Hm Hs. injection Hs as <-.
  exists (query_loop Q qargs fuel b (m - b)), (query_loop Q qargs fuel m (e - m)).
  split; [reflexivity|]. split; [reflexivity|].
  replace (e - b)%nat with ((m - b) + (e - m))%nat by lia.
  rewrite query_loop_app. replace (b + (m - b))%nat with m by lia. reflexivity.
Qed.

(** X6: in live-query mode every parallel run, however the query points are
    split across workers and however the workers interleave, makes the same
    invocations as the sequential pass over the query points [0 .. Np-1]
    ([for_loop_wrapper] with [parallel = false]), each the same number of
    times; hence two runs over the same iterator make the same multiset of
    invocations. *)
Theorem live_query_runs_agree
    (ref_points : NeighborQuery) (Np : nat) (qargs : QueryArgs) (fuel : nat) :
  exists s : list cf_call,
    for_loop_wrapper false 0 Np (query_body (live_iterator ref_points) qargs fuel) s /\
    loop_over_NeighborList ref_points Np qargs None fuel s /\
    (forall t, loop_over_NeighborList ref_points Np qargs None fuel t -> Permutation t s) /\
    (forall t1 t2,
       loop_over_NeighborList ref_points Np qargs None fuel t1 ->
       loop_over_NeighborList ref_points Np qargs None fuel t2 -> Permutation t1 t2).
Proof.
  exists (query_loop (live_iterator ref_points) qargs fuel 0 (Np - 0)).
  assert (Hperm : forall t,
            loop_over_NeighborList ref_points Np qargs None fuel t ->
            Permutation t (query_loop (live_iterator ref_points) qargs fuel 0 (Np - 0))).
  { intros t Ht. unfold loop_over_NeighborList, for_loop_wrapper in Ht.
    eapply (parallel_for_Permutation
              (query_body (live_iterator ref_points) qargs fuel)); [|exact Ht|reflexivity].
    intros b m e s. apply query_body_split. }
  split; [reflexivity|]. split; [|split].
  - apply parallel_leaf; [lia|reflexivity].
  - exact Hperm.
  - intros t1 t2 H1 H2. rewrite (Hperm _ H1), (Hperm _ H2). reflexivity.
Qed.

(** ** What the live-query loop passes on *)

Lemma drain_reported Q qargs i fuel : forall it np,
  drain Q qargs i fuel it np
  = map (fun r => mkcf_call (ref_id r) (Z.of_nat i) (distance r) (weight_int 1))
      (List.filter (fun r => negb (exclude_ii qargs) || negb (Z.of_nat i =? ref_id r))
         (reported Q fuel it np)).
Proof.
  induction fuel as [|f IH]; intros it np; cbn [drain reported]; [reflexivity|].
  destruct (iter_end Q it); [reflexivity|].
  destruct (iter_next Q it) as [it' np']. cbn [List.filter].
  rewrite IH.
  destruct (negb (exclude_ii qargs) || negb (Z.of_nat i =? ref_id np)); reflexivity.
Qed.

(** X7: for query point [i] the live-query loop passes on, in the order the
    iterator reports them and each once, exactly the reported neighbors,
    minus those whose reference id is [i] when the exclude-self flag is
    set; with the flag clear nothing is dropped, so there is one invocation
    per reported neighbor. *)
Theorem drain_passes_reported_neighbors
    (Q : NeighborQueryIterator) (qargs : QueryArgs) (i fuel : nat)
    (it : iter_state Q) (np : NeighborPoint) :
  drain Q qargs i fuel it np
  = map (fun r => mkcf_call (ref_id r) (Z.of_nat i) (distance r) (weight_int 1))
      (List.filter (fun r => negb (exclude_ii qargs) || negb (Z.of_nat i =? ref_id r))
         (reported Q fuel it np)) /\
  (exclude_ii qargs = false ->
   map call_i (drain Q qargs i fuel it np) = map ref_id (reported Q fuel it np) /\
   length (drain Q qargs i fuel it np) = length (reported Q fuel it np)) /\
  (exclude_ii qargs = true ->
   map call_i (drain Q qargs i fuel it np)
   = List.filter (fun r => negb (Z.of_nat i =? r)) (map ref_id (reported Q fuel it np))).
Proof.
  split; [apply drain_reported|]. rewrite drain_reported. split; intros Hex; rewrite Hex;
    cbn [negb orb].
  - generalize (reported Q fuel it np). intros l. split.
    + induction l as [|r l IH]; [reflexivity|]. cbn. f_equal. exact IH.
    + induction l as [|r l IH]; [reflexivity|]. cbn. f_equal. exact IH.
  - generalize (reported Q fuel it np). intros l.
    induction l as [|r l IH]; [reflexivity|]. cbn.
    destruct (Z.of_nat i =? ref_id r); cbn; [exact IH|f_equal; exact IH].
Qed.

(** ** The bond-list branch *)

(** X8: when a bond list is given, [loop_over_NeighborList] applies no
    exclude-self filter: whatever the query arguments, the reference points
    and [Np], every run makes one invocation per stored bond, and a stored
    bond of a point with itself is passed to the caller's function even
    when the exclude flag is set. *)
Theorem bond_list_branch_applies_no_filter
    (ref_points : NeighborQuery) (Np : nat) (qargs : QueryArgs) (fuel : nat)
    (nl : NeighborList) (t : list cf_call) :
  NeighborList_ok nl ->
  loop_over_NeighborList ref_points Np qargs (Some nl) fuel t ->
  length t = getNumBonds nl /\
  forall b i d w,
    getNeighbors nl !! (2 * b)%nat = Some i ->
    getNeighbors nl !! (2 * b + 1)%nat = Some i ->
    getDistances nl !! b = Some d ->
    getWeights nl !! b = Some w ->
    In (mkcf_call i i d (weight_float w)) t.
Proof.
  intros Hok Ht. unfold loop_over_NeighborList, loop_over_NeighborList_parallel in Ht.
  destruct (bond_loop_defined nl (getNumBonds nl) 0 Hok ltac:(lia))
    as (bonds & Hrun & Hlen & Hk).
  assert (Hbody : bond_body nl 0 (getNumBonds nl) = Some bonds)
    by (unfold bond_body; rewrite Nat.sub_0_r; exact Hrun).
  assert (Hperm : Permutation t bonds).
  { eapply (parallel_for_Permutation (bond_body nl)); [|exact Ht|exact Hbody].
    intros b m e s. apply bond_body_split. }
  split; [rewrite (Permutation_length Hperm); exact Hlen|].
  intros b i d w Hi Hj Hd Hw.
  assert (Hb : (b < getNumBonds nl)%nat).
  { destruct Hok as (_ & Hdl & _). apply lookup_lt_Some in Hd. lia. }
  specialize (Hk b Hb). cbn [Nat.add] in Hk.
  unfold bond_call in Hk. rewrite Hi, Hj, Hd, Hw in Hk. cbn [mbind option_bind] in Hk.
  apply list_elem_of_In. rewrite Hperm. eapply list_elem_of_lookup_2. exact Hk.
Qed.

Lemma example_self_nlist_ok : NeighborList_ok example_self_nlist.
Proof. repeat split. Qed.

Lemma bond_list_branch_applies_no_filter_witness :
  NeighborList_ok example_self_nlist /\
  exists t,
    loop_over_NeighborList example_query 2 (mkQueryArgs true) (Some example_self_nlist) 5 t /\
    In (mkcf_call 3 3 (S754_zero false) (weight_float float_one)) t.
Proof.
  split; [exact example_self_nlist_ok|].
  exists [mkcf_call 3 3 (S754_zero false) (weight_float float_one);
          mkcf_call 3 4 float_one (weight_float float_one)].
  assert (Hrun : loop_over_NeighborList example_query 2 (mkQueryArgs true)
                   (Some example_self_nlist) 5
                   [mkcf_call 3 3 (S754_zero false) (weight_float float_one);
                    mkcf_call 3 4 float_one (weight_float float_one)]).
  { apply parallel_leaf; [cbn; lia|reflexivity]. }
  split; [exact Hrun|].
  exact (proj2 (bond_list_branch_applies_no_filter _ _ _ _ _ _ example_self_nlist_ok Hrun)
           0%nat 3 (S754_zero false) float_one eq_refl eq_refl eq_refl eq_refl).
Defined.

(** ** The life of a wrapper *)

Section ScratchArrayLife.

Context {T : Type} (zero : T).

Local Abbreviation heap := (gmap loc (list T)).

Lemma owns_exactly_local tid (h0 : heap) (w : ETSArrayWrapper) (h : heap) :
  owns_exactly h0 (w, h) ->
  owns_exactly h0 (snd (fst (local zero tid w h)), snd (local zero tid w h)).
Proof.
  intros (Hown & Hinj & Hrest). unfold owns_exactly, local. cbn [fst snd] in *.
  destruct (ets_elements (array w) !! tid) as [p|] eqn:Et.
  - cbn [fst snd]. exact (conj Hown (conj Hinj Hrest)).
  - destruct (ets_init (array w)).
    + cbn [fst snd array ets_elements]. split; [|split].
      * intros t l Hl. destruct (decide (tid = t)) as [<-|Hne].
        -- rewrite lookup_insert_eq in Hl. discriminate.
        -- rewrite lookup_insert_ne in Hl by exact Hne. apply (Hown _ _ Hl).
      * intros t1 t2 l H1 H2.
        destruct (decide (tid = t1)) as [<-|Hne1];
          [rewrite lookup_insert_eq in H1; discriminate|].
        destruct (decide (tid = t2)) as [<-|Hne2];
          [rewrite lookup_insert_eq in H2; discriminate|].
        rewrite lookup_insert_ne in H1, H2 by assumption. eapply Hinj; eassumption.
      * intros l Hl. apply Hrest. intros t Ht. apply (Hl t).
        destruct (decide (tid = t)) as [<-|Hne]; [congruence|].
        rewrite lookup_insert_ne by exact Hne. exact Ht.
    + unfold makeNewEmptyArray. cbn [fst snd array ets_elements].
      set (l0 := fresh (dom h)).
      assert (Hfresh : h !! l0 = None) by (apply not_elem_of_dom, is_fresh).
      assert (Hnot : forall t, ets_elements (array w) !! t <> Some (Some l0)).
      { intros t Ht. destruct (Hown _ _ Ht) as [_ [a Ha]]. congruence. }
      split; [|split].
      * intros t l Hl. destruct (decide (tid = t)) as [<-|Hne].
        -- rewrite lookup_insert_eq in Hl. injection Hl as <-.
           split; [rewrite <- (Hrest l0 Hnot); exact Hfresh|].
           rewrite lookup_insert_eq. eauto.
        -- rewrite lookup_insert_ne in Hl by exact Hne.
           destruct (Hown _ _ Hl) as [H0 [a Ha]]. split; [exact H0|].
           rewrite lookup_insert_ne by (intros ->; congruence). eauto.
      * intros t1 t2 l H1 H2.
        destruct (decide (tid = t1)) as [<-|Hne1]; destruct (decide (tid = t2)) as [<-|Hne2];
          try reflexivity.
        -- rewrite lookup_insert_eq in H1. injection H1 as <-.
           rewrite lookup_insert_ne in H2 by exact Hne2. exfalso. exact (Hnot _ H2).
        -- rewrite lookup_insert_eq in H2. injection H2 as <-.
           rewrite lookup_insert_ne in H1 by exact Hne1. exfalso. exact (Hnot _ H1).
        -- rewrite lookup_insert_ne in H1, H2 by assumption. eapply Hinj; eassumption.
      * intros l Hl.
        assert (l <> l0).
        { intros ->. apply (Hl tid). apply lookup_insert_eq. }
        rewrite lookup_insert_ne by congruence. apply Hrest. intros t Ht. apply (Hl t).
        destruct (decide (tid = t)) as [<-|Hne]; [congruence|].
        rewrite lookup_insert_ne by exact Hne. exact Ht.
Qed.

Lemma local_holds tid (w : ETSArrayWrapper) (h : heap) p :
  fst (fst (local zero tid w h)) = p ->
  ets_elements (array (snd (fst (local zero tid w h)))) !! tid = Some p.
Proof.
  unfold local. destruct (ets_elements (array w) !! tid) as [q|] eqn:Et.
  - cbn [fst snd]. intros <-. exact Et.
  - destruct (ets_init (array w)); cbn [fst snd array ets_elements]; intros <-;
      apply lookup_insert_eq.
Qed.

Lemma owns_exactly_op (h0 : heap) op (st st' : ETSArrayWrapper * heap) :
  owns_exactly h0 st -> run_op zero op st = Some st' -> owns_exactly h0 st'.
Proof.
  destruct st as [w h]. intros Hinv. destruct op as [tid|tid i v]; unfold run_op;
    cbn [fst snd];
    pose proof (owns_exactly_local tid h0 w h Hinv) as Hloc;
    pose proof (local_holds tid w h _ eq_refl) as Hheld;
    destruct (local zero tid w h) as [[p w1] h1]; cbn [fst snd] in Hloc, Hheld.
  - intros H. injection H as <-. exact Hloc.
  - destruct p as [l|]; cbn [mbind option_bind]; [|discriminate].
    destruct (h1 !! l) as [a|] eqn:Ea; cbn [mbind option_bind]; [|discriminate].
    destruct (decide (i < length a)%nat); [|discriminate].
    intros H. injection H as <-. destruct Hloc as (Hown & Hinj & Hrest).
    unfold owns_exactly. cbn [fst snd] in *. split; [|split].
    + intros t l' Hl'. destruct (Hown _ _ Hl') as [H0 [b Hb]]. split; [exact H0|].
      destruct (decide (l = l')) as [->|Hne];
        [rewrite lookup_insert_eq|rewrite lookup_insert_ne by exact Hne]; eauto.
    + exact Hinj.
    + intros l' Hl'. assert (l <> l') by (intros ->; exact (Hl' _ Hheld)).
      rewrite lookup_insert_ne by assumption. apply Hrest, Hl'.
Qed.

Lemma deleteArray_restores (h0 : heap) (w : ETSArrayWrapper) (h : heap) :
  owns_exactly h0 (w, h) -> deleteArray w h = h0.
Proof.
  intros (Hown & _ & Hrest). cbn [fst snd] in *. apply map_eq. intros l.
  destruct (decide (Some l ∈ (snd <$> map_to_list (ets_elements (array w)))))
    as [Hin|Hno].
  - apply list_elem_of_fmap in Hin. destruct Hin as ([tid p] & Hp & Hin).
    cbn in Hp. subst p. apply elem_of_map_to_list in Hin.
    rewrite (deleteArray_gone w h tid l Hin). symmetry. apply (Hown _ _ Hin).
  - assert (Hl : forall tid, ets_elements (array w) !! tid <> Some (Some l)).
    { intros tid Ht. apply Hno. apply list_elem_of_fmap. exists (tid, Some l).
      split; [reflexivity|]. apply elem_of_map_to_list. exact Ht. }
    rewrite (deleteArray_other w h l Hl). apply Hrest, Hl.
Qed.

Lemma owns_exactly_life_op (h0 : heap) op (st st' : ETSArrayWrapper * heap) :
  owns_exactly h0 st -> run_life_op zero op st = Some st' -> owns_exactly h0 st'.
Proof.
  intros Hinv. destruct op as [o|size]; cbn [run_life_op].
  - apply owns_exactly_op, Hinv.
  - intros H. injection H as <-. destruct st as [w h]. unfold update. cbn [fst snd].
    rewrite (deleteArray_restores h0 w h Hinv).
    unfold owns_exactly. split; [|split]; cbn [fst snd array ets_elements].
    + intros tid l Hl. rewrite lookup_empty in Hl. discriminate.
    + intros t1 t2 l Hl. rewrite lookup_empty in Hl. discriminate.
    + reflexivity.
Qed.

Lemma owns_exactly_life (h0 : heap) ops : forall (st st' : ETSArrayWrapper * heap),
  owns_exactly h0 st -> run_life zero ops st = Some st' -> owns_exactly h0 st'.
Proof.
  induction ops as [|op ops IH]; intros st st' Hinv H; cbn [run_life] in H.
  - injection H as <-. exact Hinv.
  - destruct (run_life_op zero op st) as [st1|] eqn:E; cbn [mbind option_bind] in H;
      [|discriminate].
    eapply IH; [|exact H]. eapply owns_exactly_life_op; eassumption.
Qed.

Lemma owns_exactly_start (h0 : heap) (w : ETSArrayWrapper) :
  ets_elements (array w) = ∅ -> owns_exactly h0 (w, h0).
Proof.
  intros He. unfold owns_exactly. split; [|split]; cbn [fst snd]; rewrite ?He.
  - intros tid l Hl. rewrite lookup_empty in Hl. discriminate.
  - intros t1 t2 l Hl. rewrite lookup_empty in Hl. discriminate.
  - reflexivity.
Qed.

(** X9: whichever constructor built the wrapper, and after any updates,
    fetches and stores, no two workers hold the same array, every array a
    worker holds is allocated (no pointer dangles), and a worker that
    fetches its pointer again gets the pointer it already holds, with
    nothing allocated and nothing changed. *)
Theorem ETSArrayWrapper_arrays_private
    (h0 : gmap loc (list T)) (w0 : ETSArrayWrapper) (ops : list (life_op T))
    (st : ETSArrayWrapper * gmap loc (list T)) :
  w0 = ETSArrayWrapper_default \/ (exists size, w0 = ETSArrayWrapper_sized size) ->
  run_life zero ops (w0, h0) = Some st ->
  (forall t1 t2 l,
     ets_elements (array (fst st)) !! t1 = Some (Some l) ->
     ets_elements (array (fst st)) !! t2 = Some (Some l) -> t1 = t2) /\
  (forall tid l,
     ets_elements (array (fst st)) !! tid = Some (Some l) -> is_Some (snd st !! l)) /\
  (forall tid,
     let r := local zero tid (fst st) (snd st) in
     local zero tid (snd (fst r)) (snd r) = r).
Proof.
  intros Hw0 Hrun.
  assert (Hstart : owns_exactly h0 (w0, h0)).
  { apply owns_exactly_start. destruct Hw0 as [->|[size ->]]; reflexivity. }
  pose proof (owns_exactly_life h0 ops _ _ Hstart Hrun) as (Hown & Hinj & _).
  split; [exact Hinj|]. split; [intros tid l Hl; apply (Hown _ _ Hl)|].
  intros tid. cbn zeta.
  pose proof (local_holds tid (fst st) (snd st) _ eq_refl) as Hheld.
  destruct (local zero tid (fst st) (snd st)) as [[p w1] h1]. cbn [fst snd] in *.
  unfold local. rewrite Hheld. reflexivity.
Qed.

(** X10: a wrapper constructed (by either constructor) in a free store,
    then updated, fetched from and stored through in any way, and finally
    destroyed, leaves the free store exactly as it was at construction:
    every array it allocated is freed, and nothing else is freed or
    changed.  The same holds of the free store right after any [update]:
    the arrays of the previous round are all gone. *)
Theorem ETSArrayWrapper_frees_exactly_its_arrays
    (h0 : gmap loc (list T)) (w0 : ETSArrayWrapper) (ops : list (life_op T))
    (st : ETSArrayWrapper * gmap loc (list T)) :
  w0 = ETSArrayWrapper_default \/ (exists size, w0 = ETSArrayWrapper_sized size) ->
  run_life zero ops (w0, h0) = Some st ->
  ETSArrayWrapper_destroy (fst st) (snd st) = h0 /\
  (forall size, snd (update size (fst st) (snd st)) = h0) /\
  (forall l, is_Some (h0 !! l) -> snd st !! l = h0 !! l).
Proof.
  intros Hw0 Hrun.
  assert (Hstart : owns_exactly h0 (w0, h0)).
  { apply owns_exactly_start. destruct Hw0 as [->|[size ->]]; reflexivity. }
  pose proof (owns_exactly_life h0 ops _ _ Hstart Hrun) as Hinv.
  destruct st as [w h]. cbn [fst snd] in *.
  split; [apply deleteArray_restores, Hinv|]. split.
  - intros size. unfold update. cbn [snd]. apply deleteArray_restores, Hinv.
  - intros l [a Ha]. destruct Hinv as (Hown & _ & Hrest). cbn [fst snd] in *.
    apply Hrest. intros tid Ht. destruct (Hown _ _ Ht) as [H0 _]. congruence.
Qed.

End ScratchArrayLife.

Lemma ETSArrayWrapper_arrays_private_witness :
  exists st,
    run_life 0 [life_worker (op_local 1%nat); life_worker (op_store 2%nat 0%nat 7)]
      (ETSArrayWrapper_sized 3, (∅ : gmap loc (list Z))) = Some st /\
    forall l, ets_elements (array (fst st)) !! 1%nat = Some (Some l) ->
              ets_elements (array (fst st)) !! 2%nat <> Some (Some l).
Proof.
  destruct (run_life 0 [life_worker (op_local 1%nat); life_worker (op_store 2%nat 0%nat 7)]
              (ETSArrayWrapper_sized 3, (∅ : gmap loc (list Z)))) as [st|] eqn:E;
    [|vm_compute in E; discriminate].
  exists st. split; [reflexivity|]. intros l H1 H2.
  pose proof (proj1 (ETSArrayWrapper_arrays_private 0 ∅ (ETSArrayWrapper_sized 3) _ st
                       (or_intror (ex_intro _ 3 eq_refl)) E) 1%nat 2%nat l H1 H2).
  discriminate.
Defined.

Lemma ETSArrayWrapper_frees_exactly_its_arrays_witness :
  exists st,
    run_life 0 [life_worker (op_local 1%nat); life_update 5;
                life_worker (op_store 2%nat 4%nat 7)]
      (ETSArrayWrapper_default, (∅ : gmap loc (list Z))) = Some st /\
    ETSArrayWrapper_destroy (fst st) (snd st) = ∅.
Proof.
  destruct (run_life 0 [life_worker (op_local 1%nat); life_update 5;
                        life_worker (op_store 2%nat 4%nat 7)]
              (ETSArrayWrapper_default, (∅ : gmap loc (list Z)))) as [st|] eqn:E;
    [|vm_compute in E; discriminate].
  exists st. split; [reflexivity|].
  exact (proj1 (ETSArrayWrapper_frees_exactly_its_arrays 0 ∅ ETSArrayWrapper_default _ st
                  (or_introl eq_refl) E)).
Defined.

(** ** Sentinels of the other dimensionality *)

Lemma shell_loop_flag_mismatch fuel : forall it last,
  m_is2D it <> m_is2D last -> shell_loop fuel it last = None.
Proof.
  induction fuel as [|f IH]; intros it last Hne.
  - cbn [shell_loop]. destruct (operator_eq it last) eqn:E; [|reflexivity].
    apply operator_eq_true in E. tauto.
  - cbn [shell_loop]. destruct (operator_eq it last) eqn:E.
    + apply operator_eq_true in E. tauto.
    + rewrite IH; [reflexivity|]. rewrite operator_incr_is2D. exact Hne.
Qed.

(** X11: [operator==] compares the dimensionality flag and [operator++]
    never changes it, so an iterator never becomes equal to a sentinel of
    the other dimensionality: the loop
    [for (it(r1, d); it != IteratorCellShell(r2, !d); ++it)] never ends,
    whatever the ranges (it exhausts every iteration budget), and no number
    of [operator++] makes the two compare equal. *)
Theorem shell_loop_other_dimensionality_diverges (r1 r2 : Z) (is2D : bool) :
  (forall fuel,
     shell_loop fuel (IteratorCellShell_new r1 is2D) (IteratorCellShell_new r2 (negb is2D))
     = None) /\
  (forall n,
     operator_eq (advance n (IteratorCellShell_new r1 is2D))
                 (IteratorCellShell_new r2 (negb is2D)) = false).
Proof.
  assert (Hnew : forall r d, m_is2D (IteratorCellShell_new r d) = d).
  { intros r d. unfold IteratorCellShell_new, reset. destruct (r =? 0); reflexivity. }
  split.
  - intros fuel. apply shell_loop_flag_mismatch. rewrite !Hnew. destruct is2D; discriminate.
  - intros n.
    assert (Hflag : m_is2D (advance n (IteratorCellShell_new r1 is2D)) = is2D).
    { induction n as [|n IH]; [apply Hnew|].
      unfold advance in *. rewrite iterate_succ, operator_incr_is2D. exact IH. }
    destruct (operator_eq _ _) eqn:E; [|reflexivity].
    apply operator_eq_true in E. destruct E as (_ & _ & _ & _ & _ & E).
    rewrite Hflag, Hnew in E. destruct is2D; discriminate.
Qed.
